(** * UniSettings: the change-detection engine of a file-backed settings store

    A shallow embedding of [src/unisettings.cpp] (class [UniSettingsPrivate]
    and the public [UniSettings] facade) together with the properties of its
    group namespace, its snapshot differencer, its self-write suppression
    flag and its debounce-timer callbacks. *)

From Stdlib Require Import ZArith Ascii String.
From stdpp Require Import base gmap sets list strings.

Local Open Scope string_scope.

(** ** QString primitives used by the code *)

Module QStr.

(** [QString::isEmpty]. *)
Definition isEmpty (s : string) : bool :=
  match s with EmptyString => true | String _ _ => false end.

(** [QString::lastIndexOf(QChar)]: the index of the last occurrence of [c],
    or -1 when there is none.  [i] is the index of the head of [s], [acc] the
    last hit so far. *)
Fixpoint lastIndexOf_from (c : ascii) (s : string) (i acc : Z) : Z :=
  match s with
  | EmptyString => acc
  | String a s' =>
      lastIndexOf_from c s' (i + 1)%Z (if Ascii.eqb a c then i else acc)
  end.

Definition lastIndexOf (c : ascii) (s : string) : Z :=
  lastIndexOf_from c s 0%Z (-1)%Z.

(** [QString::left(n)] for [0 <= n]: the first [n] characters, the whole
    string when it is shorter. *)
Fixpoint left_nat (n : nat) (s : string) : string :=
  match n, s with
  | O, _ => EmptyString
  | S _, EmptyString => EmptyString
  | S n', String a s' => String a (left_nat n' s')
  end.

Definition left (n : Z) (s : string) : string :=
  if (n <? 0)%Z then s else left_nat (Z.to_nat n) s.

(** [QStringList::join(sep)]. *)
Fixpoint join (sep : string) (l : list string) : string :=
  match l with
  | [] => EmptyString
  | [s] => s
  | s :: rest => s ++ sep ++ join sep rest
  end.

(** [QString::split(QChar)] with the default [KeepEmptyParts]: the pieces
    between the occurrences of [c]; one (empty) piece for the empty string. *)
Fixpoint split (c : ascii) (s : string) : list string :=
  match s with
  | EmptyString => [EmptyString]
  | String a s' =>
      if Ascii.eqb a c then EmptyString :: split c s'
      else match split c s' with
           | [] => [String a EmptyString]
           | p :: ps => String a p :: ps
           end
  end.

(** [QString::contains(QChar)]. *)
Fixpoint contains (c : ascii) (s : string) : bool :=
  match s with
  | EmptyString => false
  | String a s' => Ascii.eqb a c || contains c s'
  end.

(** [QString::startsWith]. *)
Definition startsWith (s p : string) : bool := String.prefix p s.

End QStr.

Definition slash : ascii := "/"%char.

(** ** QVariant

    The dynamically typed value of the store.  [Invalid] is the
    default-constructed [QVariant()], which the code uses as the Absent
    marker; the valid values are scalars and lists of scalars.  Floating
    point values are left out. *)

Inductive Scalar :=
  | SBool (b : bool)
  | SInt (z : Z)
  | SStr (s : string).

Inductive QVariant :=
  | Invalid
  | Single (x : Scalar)
  | Multi (l : list Scalar).

#[global] Instance Scalar_eq_dec : EqDecision Scalar.
Proof. solve_decision. Defined.

#[global] Instance QVariant_eq_dec : EqDecision QVariant.
Proof. solve_decision. Defined.

(** ** The directory of backing files

    [<config-dir>/unisettings/] holds the files [<name>.conf]; the path of
    a file is written here as its [<name>], the file name without the
    directory and the [.conf] suffix, and a file holds a flat key-value map.
    [writable] says whether a durable write can succeed (false: disk full,
    permission denied). *)

Record FileSystem := mkFS {
  files : gmap string (gmap string QVariant);
  writable : bool
}.

Definition readFile (fs : FileSystem) (name : string) : gmap string QVariant :=
  default ∅ (files fs !! name).

Definition writeFile (fs : FileSystem) (name : string)
    (content : gmap string QVariant) : FileSystem :=
  mkFS (<[name := content]> (files fs)) (writable fs).

(** [QFileInfo::baseName]: the characters of the file name up to the
    first ".".  For the file [<name>.conf] this is the part of [<name>]
    before its first ".", the whole of it when it has none. *)
Fixpoint baseName (name : string) : string :=
  match name with
  | EmptyString => EmptyString
  | String a rest =>
      if Ascii.eqb a "."%char then EmptyString else String a (baseName rest)
  end.

(** ** QSettings (IniFormat) *)

Inductive Status := NoError | AccessError.

#[global] Instance Status_eq_dec : EqDecision Status.
Proof. solve_decision. Defined.

(** Modelled from the spec: the Backing File Store (Qt's [QSettings], which
    is not part of the repository): get/set/remove/keys/clear over the
    file's key set and a flush that forces the durable write, a missing file
    being an empty map.  The object keeps the keys it last read from its
    file, the keys set since the last flush and the keys removed since
    then.  Keys are taken in their normal form. *)
Record QSettings := mkQS {
  fileName : string;
  originalKeys : gmap string QVariant;
  addedKeys : gmap string QVariant;
  removedKeys : gset string;
  status : Status
}.

Module QS.

Definition open (fs : FileSystem) (name : string) : QSettings :=
  mkQS name (readFile fs name) ∅ ∅ NoError.

(** The key-value map the object answers from. *)
Definition view (q : QSettings) : gmap string QVariant :=
  addedKeys q ∪ filter (λ kv, kv.1 ∉ removedKeys q) (originalKeys q).

Definition value (q : QSettings) (key : string) (def : QVariant) : QVariant :=
  default def (view q !! key).

Definition contains (q : QSettings) (key : string) : bool :=
  bool_decide (is_Some (view q !! key)).

Definition allKeys (q : QSettings) : list string :=
  (map_to_list (view q)).*1.

Definition setValue (q : QSettings) (key : string) (v : QVariant) : QSettings :=
  mkQS (fileName q) (originalKeys q) (<[key := v]> (addedKeys q))
       (removedKeys q ∖ {[key]}) (status q).

(** [key] itself and its sub-settings [key/...]; every key for the empty
    [key]. *)
Definition under (key k : string) : bool :=
  QStr.isEmpty key || bool_decide (k = key) || QStr.startsWith k (key ++ "/").

Definition remove (q : QSettings) (key : string) : QSettings :=
  mkQS (fileName q) (originalKeys q)
       (filter (λ kv, under key kv.1 = false) (addedKeys q))
       (removedKeys q ∪ filter (λ k, under key k = true) (dom (originalKeys q)))
       (status q).

Definition clear (q : QSettings) : QSettings :=
  mkQS (fileName q) (originalKeys q) ∅ (dom (originalKeys q)) (status q).

Definition dirty (q : QSettings) : bool :=
  negb (bool_decide (addedKeys q = ∅) && bool_decide (removedKeys q = ∅)).

(** Reload the file, and write the pending changes merged over it.  A write
    that fails keeps the pending changes and records [AccessError]. *)
Definition sync (fs : FileSystem) (q : QSettings) : FileSystem * QSettings :=
  let q1 := mkQS (fileName q) (readFile fs (fileName q)) (addedKeys q)
                 (removedKeys q) (status q) in
  if dirty q then
    if writable fs then
      (writeFile fs (fileName q) (view q1),
       mkQS (fileName q) (view q1) ∅ ∅ (status q))
    else
      (fs, mkQS (fileName q) (originalKeys q1) (addedKeys q) (removedKeys q)
                AccessError)
  else (fs, q1).

End QS.

(** ** UniSettingsPrivate *)

Inductive Scope := SystemScope | ApplicationScope.

#[global] Instance Scope_eq_dec : EqDecision Scope.
Proof. solve_decision. Defined.

Record UniSettingsPrivate := mkPrivate {
  appName : string;
  scope : Scope;
  configPath : string;
  settings : QSettings;
  currentGroup : string;
  watcher : gset string;
  debounceTimer : bool;
  cachedValues : gmap string QVariant;
  appCachedValues : gmap string (gmap string QVariant);
  ignoreNextChange : bool
}.

Definition with_settings (q : QSettings) (d : UniSettingsPrivate) :=
  mkPrivate (appName d) (scope d) (configPath d) q (currentGroup d)
    (watcher d) (debounceTimer d) (cachedValues d) (appCachedValues d)
    (ignoreNextChange d).

Definition with_currentGroup (g : string) (d : UniSettingsPrivate) :=
  mkPrivate (appName d) (scope d) (configPath d) (settings d) g
    (watcher d) (debounceTimer d) (cachedValues d) (appCachedValues d)
    (ignoreNextChange d).

Definition with_watcher (w : gset string) (d : UniSettingsPrivate) :=
  mkPrivate (appName d) (scope d) (configPath d) (settings d) (currentGroup d)
    w (debounceTimer d) (cachedValues d) (appCachedValues d)
    (ignoreNextChange d).

Definition with_debounceTimer (t : bool) (d : UniSettingsPrivate) :=
  mkPrivate (appName d) (scope d) (configPath d) (settings d) (currentGroup d)
    (watcher d) t (cachedValues d) (appCachedValues d) (ignoreNextChange d).

Definition with_cachedValues (c : gmap string QVariant) (d : UniSettingsPrivate) :=
  mkPrivate (appName d) (scope d) (configPath d) (settings d) (currentGroup d)
    (watcher d) (debounceTimer d) c (appCachedValues d) (ignoreNextChange d).

Definition with_appCachedValues (t : gmap string (gmap string QVariant))
    (d : UniSettingsPrivate) :=
  mkPrivate (appName d) (scope d) (configPath d) (settings d) (currentGroup d)
    (watcher d) (debounceTimer d) (cachedValues d) t (ignoreNextChange d).

Definition with_ignoreNextChange (b : bool) (d : UniSettingsPrivate) :=
  mkPrivate (appName d) (scope d) (configPath d) (settings d) (currentGroup d)
    (watcher d) (debounceTimer d) (cachedValues d) (appCachedValues d) b.

(** [QHash::value(key)] and [QHash::contains(key)]. *)
Definition hash_value (h : gmap string QVariant) (key : string) : QVariant :=
  default Invalid (h !! key).

Definition hash_contains (h : gmap string QVariant) (key : string) : bool :=
  bool_decide (is_Some (h !! key)).

(** [fullKey]: the flat storage key of a leaf key under the current group. *)
Definition fullKey (d : UniSettingsPrivate) (key : string) : string :=
  if QStr.isEmpty (currentGroup d) then key
  else currentGroup d ++ "/" ++ key.

(** [cacheAllValues]. *)
Definition cacheAllValues (d : UniSettingsPrivate) : UniSettingsPrivate :=
  with_cachedValues
    (foldl (λ c key, <[key := QS.value (settings d) key Invalid]> c)
           ∅ (QS.allKeys (settings d)))
    d.

(** The constructor of [UniSettingsPrivate]. *)
Definition newPrivate (fs : FileSystem) (app : string) (s : Scope)
    : UniSettingsPrivate :=
  let path := match s with SystemScope => "system" | ApplicationScope => app end in
  cacheAllValues
    (mkPrivate app s path (QS.open fs path) "" ∅ false ∅ ∅ false).

(** The two loops of [detectChanges] and of [detectAppChanges]; the loop
    state is the pair of the delta and the cache. *)
Definition DiffState : Type := gmap string QVariant * gmap string QVariant.

Definition diffPresent (q : QSettings) (st : DiffState) (key : string) : DiffState :=
  let newValue := QS.value q key Invalid in
  let oldValue := hash_value st.2 key in
  if negb (hash_contains st.2 key) || bool_decide (newValue ≠ oldValue)
  then (<[key := newValue]> st.1, <[key := newValue]> st.2)
  else st.

Definition diffRemoved (st : DiffState) (key : string) : DiffState :=
  (<[key := Invalid]> st.1, delete key st.2).

Definition diffLoops (q : QSettings) (cached : gmap string QVariant) : DiffState :=
  let currentKeys := QS.allKeys q in
  let currentKeySet : gset string := list_to_set currentKeys in
  let cachedKeySet : gset string := dom cached in
  let st := foldl (diffPresent q) (∅, cached) currentKeys in
  let removedKeys := cachedKeySet ∖ currentKeySet in
  foldl diffRemoved st (elements removedKeys).

(** [detectChanges]: the delta between the own file and the cache. *)
Definition detectChanges (fs : FileSystem) (d : UniSettingsPrivate)
    : FileSystem * UniSettingsPrivate * gmap string QVariant :=
  if ignoreNextChange d then
    (fs, with_ignoreNextChange false d, ∅)
  else
    let '(fs', q) := QS.sync fs (settings d) in
    let st := diffLoops q (cachedValues d) in
    (fs', with_cachedValues st.2 (with_settings q d), st.1).

(** [detectAppChanges]: the delta between a sibling file and its entry in
    the sibling cache table; [appCachedValues[appName]] creates the entry. *)
Definition detectAppChanges (fs : FileSystem) (d : UniSettingsPrivate)
    (appConfigPath app : string)
    : UniSettingsPrivate * gmap string QVariant :=
  let appSettings := QS.open fs appConfigPath in
  let cached := default ∅ (appCachedValues d !! app) in
  let st := diffLoops appSettings cached in
  (with_appCachedValues (<[app := st.2]> (appCachedValues d)) d, st.1).

(** ** The UniSettings facade *)

Inductive Signal :=
  | valueChanged (key : string) (value : QVariant)
  | externalValueChanged (app key : string) (value : QVariant).

#[global] Instance Signal_eq_dec : EqDecision Signal.
Proof. solve_decision. Defined.

(** What a method leaves behind: the directory, the object, and the signals
    emitted during the call, in order.  The methods below return [void]. *)
Record Outcome := mkOutcome {
  out_fs : FileSystem;
  out_d : UniSettingsPrivate;
  out_signals : list Signal
}.

Definition fileExists (fs : FileSystem) (path : string) : bool :=
  bool_decide (is_Some (files fs !! path)).

(** [dir.entryInfoList("*.conf", QDir::Files)]: the paths of the files of
    the directory. *)
Definition entryInfoList (fs : FileSystem) : list string :=
  (map_to_list (files fs)).*1.

(** [watcher->addPath(path)] guarded by [!watcher->files().contains(path)]
    and by the existence of the file. *)
Definition rewatch (fs : FileSystem) (d : UniSettingsPrivate) : UniSettingsPrivate :=
  if negb (bool_decide (configPath d ∈ watcher d)) && fileExists fs (configPath d)
  then with_watcher ({[configPath d]} ∪ watcher d) d
  else d.

(** The loop of [UniSettings::UniSettings(QObject *parent)] over the files found at
    construction: watch the file and seed its cache; the delta is dropped. *)
Definition seedApp (fs : FileSystem) (d : UniSettingsPrivate) (filePath : string)
    : UniSettingsPrivate :=
  if bool_decide (filePath ≠ configPath d)
     && negb (bool_decide (filePath ∈ watcher d))
  then
    let d1 := with_watcher ({[filePath]} ∪ watcher d) d in
    let app := baseName filePath in
    (detectAppChanges fs d1 filePath app).1
  else d.

(** [UniSettings::UniSettings(QObject *parent)], the System-scope instance. *)
Definition newSystem (fs : FileSystem) : UniSettingsPrivate :=
  let d := newPrivate fs "system" SystemScope in
  let d := if fileExists fs (configPath d)
           then with_watcher ({[configPath d]} ∪ watcher d) d else d in
  foldl (seedApp fs) d (entryInfoList fs).

(** [UniSettings::UniSettings(const QString &appName, QObject *parent)]. *)
Definition newApplication (fs : FileSystem) (app : string) : UniSettingsPrivate :=
  let d := newPrivate fs app ApplicationScope in
  if fileExists fs (configPath d)
  then with_watcher ({[configPath d]} ∪ watcher d) d else d.

(** One [emit] per entry of a delta. *)
Definition emitExternal (owner : string) (changes : gmap string QVariant)
    : list Signal :=
  (λ kv, externalValueChanged owner kv.1 kv.2) <$> map_to_list changes.

Definition emitBoth (owner : string) (changes : gmap string QVariant)
    : list Signal :=
  mjoin ((λ kv, [valueChanged kv.1 kv.2; externalValueChanged owner kv.1 kv.2])
           <$> map_to_list changes).

(** The body of the loop over the directory in the System-scope timer
    callback; the loop state is the object and the signals emitted so far. *)
Definition checkApp (fs : FileSystem) (st : UniSettingsPrivate * list Signal)
    (filePath : string) : UniSettingsPrivate * list Signal :=
  let app := baseName filePath in
  if bool_decide (app ≠ "system") then
    let '(d1, appChanges) := detectAppChanges fs st.1 filePath app in
    let d2 := if negb (bool_decide (filePath ∈ watcher d1))
              then with_watcher ({[filePath]} ∪ watcher d1) d1 else d1 in
    (d2, (st.2 ++ emitExternal app appChanges)%list)
  else st.

(** The [QTimer::timeout] callback of the System-scope instance. *)
Definition systemTimeout (fs : FileSystem) (d : UniSettingsPrivate) : Outcome :=
  let '(fs1, d1, changes) := detectChanges fs (with_debounceTimer false d) in
  let sigs := emitExternal "system" changes in
  let '(d2, sigs2) := foldl (checkApp fs1) (d1, sigs) (entryInfoList fs1) in
  mkOutcome fs1 (rewatch fs1 d2) sigs2.

(** The [QTimer::timeout] callback of an Application-scope instance. *)
Definition appTimeout (fs : FileSystem) (d : UniSettingsPrivate) : Outcome :=
  let '(fs1, d1, changes) := detectChanges fs (with_debounceTimer false d) in
  mkOutcome fs1 (rewatch fs1 d1) (emitBoth (appName d1) changes).

(** The callback connected by the constructor that built the instance. *)
Definition onTimeout (fs : FileSystem) (d : UniSettingsPrivate) : Outcome :=
  match scope d with
  | SystemScope => systemTimeout fs d
  | ApplicationScope => appTimeout fs d
  end.

(** [onFileChanged]: arm the single-shot timer unless it is pending. *)
Definition onFileChanged (fs : FileSystem) (d : UniSettingsPrivate) : Outcome :=
  mkOutcome fs
    (if negb (debounceTimer d) then with_debounceTimer true d else d) [].

Definition value (d : UniSettingsPrivate) (key : string) (defaultValue : QVariant)
    : QVariant :=
  QS.value (settings d) (fullKey d key) defaultValue.

Definition setValue (fs : FileSystem) (d : UniSettingsPrivate)
    (key : string) (v : QVariant) : Outcome :=
  let fk := fullKey d key in
  let oldValue := QS.value (settings d) fk Invalid in
  if bool_decide (oldValue ≠ v) then
    let d1 := with_ignoreNextChange true d in
    let q1 := QS.setValue (settings d1) fk v in
    let '(fs2, q2) := QS.sync fs q1 in
    let d2 := with_settings q2 d1 in
    let d3 := with_cachedValues (<[fk := v]> (cachedValues d2)) d2 in
    mkOutcome fs2 d3 [valueChanged fk v]
  else mkOutcome fs d [].

Definition contains (d : UniSettingsPrivate) (key : string) : bool :=
  QS.contains (settings d) (fullKey d key).

Definition remove (fs : FileSystem) (d : UniSettingsPrivate) (key : string)
    : Outcome :=
  let fk := fullKey d key in
  let d1 := with_ignoreNextChange true d in
  let q1 := QS.remove (settings d1) fk in
  let '(fs2, q2) := QS.sync fs q1 in
  let d2 := with_settings q2 d1 in
  let d3 := with_cachedValues (delete fk (cachedValues d2)) d2 in
  mkOutcome fs2 d3 [valueChanged fk Invalid].

Definition allKeys (d : UniSettingsPrivate) : list string :=
  QS.allKeys (settings d).

Definition clear (fs : FileSystem) (d : UniSettingsPrivate) : Outcome :=
  let d1 := with_ignoreNextChange true d in
  let q1 := QS.clear (settings d1) in
  let '(fs2, q2) := QS.sync fs q1 in
  let d2 := with_settings q2 d1 in
  mkOutcome fs2 (with_cachedValues ∅ d2) [].

Definition sync (fs : FileSystem) (d : UniSettingsPrivate) : Outcome :=
  let '(fs2, q2) := QS.sync fs (settings d) in
  mkOutcome fs2 (with_settings q2 d) [].

Definition beginGroup (d : UniSettingsPrivate) (prefix : string)
    : UniSettingsPrivate :=
  if negb (QStr.isEmpty (currentGroup d))
  then with_currentGroup (currentGroup d ++ "/" ++ prefix) d
  else with_currentGroup prefix d.

Definition endGroup (d : UniSettingsPrivate) : UniSettingsPrivate :=
  let idx := QStr.lastIndexOf slash (currentGroup d) in
  if (0 <=? idx)%Z
  then with_currentGroup (QStr.left idx (currentGroup d)) d
  else with_currentGroup "" d.

Definition group (d : UniSettingsPrivate) : string := currentGroup d.

(** ** Vocabulary of the statements *)

(** A group segment: a non-empty string without the separator. *)
Definition segment (s : string) : Prop :=
  s ≠ "" ∧ QStr.contains slash s = false.

(** The instance after the calls [beginGroup(s1); ...; beginGroup(sn)]. *)
Definition pushGroups (d : UniSettingsPrivate) (stack : list string)
    : UniSettingsPrivate :=
  foldl beginGroup d stack.

(** The delta of a file content against a cache, entry by entry: the new
    value of a key of the file that the cache lacks or holds with another
    value, the Absent marker for a key that only the cache holds. *)
Definition deltaAt (onDisk inCache : option QVariant) : option QVariant :=
  match onDisk with
  | Some v => if decide (inCache = Some v) then None else Some v
  | None => match inCache with Some _ => Some Invalid | None => None end
  end.

Definition delta (disk cache : gmap string QVariant) : gmap string QVariant :=
  merge deltaAt disk cache.

(** The calls an event loop makes on an instance: the mutating methods of
    the facade, the watcher's notification and the expiry of the timer. *)
Inductive Call :=
  | CSetValue (key : string) (v : QVariant)
  | CRemove (key : string)
  | CClear
  | CSync
  | CBeginGroup (prefix : string)
  | CEndGroup
  | CFileChanged
  | CTimeout.

Definition run (c : Call) (fs : FileSystem) (d : UniSettingsPrivate) : Outcome :=
  match c with
  | CSetValue key v => setValue fs d key v
  | CRemove key => remove fs d key
  | CClear => clear fs d
  | CSync => sync fs d
  | CBeginGroup prefix => mkOutcome fs (beginGroup d prefix) []
  | CEndGroup => mkOutcome fs (endGroup d) []
  | CFileChanged => onFileChanged fs d
  | CTimeout => onTimeout fs d
  end.

(** A sequence of calls, each made over the directory as it is by then
    (other processes write it in between). *)
Definition runCalls (l : list (FileSystem * Call)) (d : UniSettingsPrivate)
    : UniSettingsPrivate :=
  foldl (λ d' p, out_d (run p.2 p.1 d')) d l.

(** A local write or removal. *)
Definition isLocalWrite (c : Call) : bool :=
  match c with CSetValue _ _ | CRemove _ => true | _ => false end.

(** The store object after a reload of its file, pending changes kept. *)
Definition reloaded (fs : FileSystem) (q : QSettings) : QSettings :=
  mkQS (fileName q) (readFile fs (fileName q)) (addedKeys q) (removedKeys q)
       (status q).

(** [beforeLast c s] is the part of [s] before its last [c], when there is
    one: what [left (lastIndexOf c s)] computes. *)
Fixpoint beforeLast (c : ascii) (s : string) : option string :=
  match s with
  | EmptyString => None
  | String a s' =>
      match beforeLast c s' with
      | Some p => Some (String a p)
      | None => if Ascii.eqb a c then Some EmptyString else None
      end
  end.

(** ** Sample instances *)

Definition dark : QVariant := Single (SStr "dark").
Definition light : QVariant := Single (SStr "light").

(** A writable directory without files, and one that holds the file of the
    application "editor". *)
Definition emptyDir : FileSystem := mkFS ∅ true.
Definition editorDir : FileSystem :=
  mkFS {[ "editor" := {[ "theme" := dark ]} ]} true.

(** Instances constructed over the empty directory. *)
Definition editor0 : UniSettingsPrivate := newApplication emptyDir "editor".
Definition system0 : UniSettingsPrivate := newSystem emptyDir.

(** The empty directory when nothing can be written (disk full, permission
    denied). *)
Definition fullDisk : FileSystem := mkFS ∅ false.

(** ** The rest of the facade and its wrapper *)

(** [UniSettings::appValue]: a transient read of the file of [app]. *)
Definition appValue (fs : FileSystem) (app key : string)
    (defaultValue : QVariant) : QVariant :=
  let appSettings := QS.open fs app in
  QS.value appSettings key defaultValue.

(** [UniSettings::systemValue]: the instance's own [value] in System scope,
    a transient read of the system file otherwise. *)
Definition systemValue (fs : FileSystem) (d : UniSettingsPrivate)
    (key : string) (defaultValue : QVariant) : QVariant :=
  match scope d with
  | SystemScope => value d key defaultValue
  | ApplicationScope =>
      let systemSettings := QS.open fs "system" in
      QS.value systemSettings key defaultValue
  end.

(** The signals of [SystemSettings] ([src/systemsettings.cpp]) and the two
    lambdas its constructor connects to the signals of the System-scope
    instance. *)
Inductive SystemSignal :=
  | settingChanged (key : string) (value : QVariant)
  | appSettingChanged (app key : string) (value : QVariant).

Definition forwardSignal (s : Signal) : SystemSignal :=
  match s with
  | valueChanged key v => settingChanged key v
  | externalValueChanged app key v =>
      if bool_decide (app = "system") then settingChanged key v
      else appSettingChanged app key v
  end.

(** A burst of watcher notifications, each over the directory as it is by
    then. *)
Definition fileChangedBurst (l : list FileSystem) (d : UniSettingsPrivate)
    : UniSettingsPrivate :=
  foldl (λ d' fs, out_d (onFileChanged fs d')) d l.

(** No two files of the directory have the same base name. *)
Definition distinctBaseNames (fs : FileSystem) : Prop :=
  ∀ x y, is_Some (files fs !! x) → is_Some (files fs !! y) →
         baseName x = baseName y → x = y.

(** The instance is in step with its file: nothing is pending, the store
    object holds what the file holds, and so does the snapshot cache. *)
Definition synced (fs : FileSystem) (d : UniSettingsPrivate) : Prop :=
  QS.dirty (settings d) = false
  ∧ originalKeys (settings d) = readFile fs (fileName (settings d))
  ∧ cachedValues d = originalKeys (settings d).

(** A directory where the file of "editor" holds a key inside a group. *)
Definition groupedDir : FileSystem :=
  mkFS {[ "editor" := {[ "ui/theme" := dark ]} ]} true.

(** A directory with two files of the same base name, "a.1.conf" and
    "a.2.conf", that hold different values. *)
Definition sharedDir : FileSystem :=
  mkFS {[ "a.1" := {[ "theme" := dark ]}; "a.2" := {[ "theme" := light ]} ]}
       true.

(** * Properties *)

(** ** QString lemmas *)

Section qstring.
Variable c : ascii.

Lemma isEmpty_true (s : string) : QStr.isEmpty s = true ↔ s = "".
Proof. destruct s; simpl; split; congruence. Qed.

Lemma append_nil_l (s : string) : "" ++ s = s.
Proof. reflexivity. Qed.

Lemma append_cons (a : ascii) (s1 s2 : string) :
  String a s1 ++ s2 = String a (s1 ++ s2).
Proof. reflexivity. Qed.

Lemma append_assoc (s1 s2 s3 : string) : (s1 ++ s2) ++ s3 = s1 ++ s2 ++ s3.
Proof.
  induction s1 as [|a s1 IH]; [done |]. by rewrite !append_cons, IH.
Qed.

Lemma lastIndexOf_from_absent (s : string) (i acc : Z) :
  QStr.contains c s = false → QStr.lastIndexOf_from c s i acc = acc.
Proof.
  revert i acc. induction s as [|a s IH]; intros i acc; simpl; [done |].
  intros [Ha Hs]%orb_false_iff. rewrite Ha. by apply IH.
Qed.

Lemma lastIndexOf_from_app (s1 s2 : string) (i acc : Z) :
  QStr.lastIndexOf_from c (s1 ++ s2) i acc
  = QStr.lastIndexOf_from c s2 (i + Z.of_nat (String.length s1))%Z
      (QStr.lastIndexOf_from c s1 i acc).
Proof.
  revert i acc. induction s1 as [|a s1 IH]; intros i acc; simpl String.length.
  - rewrite append_nil_l. simpl. by rewrite Z.add_0_r.
  - rewrite append_cons. simpl QStr.lastIndexOf_from. rewrite IH.
    f_equal. lia.
Qed.

(** The last separator of [g ++ c ++ s], for [s] free of [c], is the one
    written between them. *)
Lemma lastIndexOf_sep (g s : string) :
  QStr.contains c s = false →
  QStr.lastIndexOf c (g ++ String c s) = Z.of_nat (String.length g).
Proof.
  intros Hs. unfold QStr.lastIndexOf. rewrite lastIndexOf_from_app.
  simpl. rewrite Ascii.eqb_refl. by rewrite lastIndexOf_from_absent.
Qed.

Lemma lastIndexOf_absent (s : string) :
  QStr.contains c s = false → QStr.lastIndexOf c s = (-1)%Z.
Proof. apply lastIndexOf_from_absent. Qed.

Lemma left_nat_app (g s : string) : QStr.left_nat (String.length g) (g ++ s) = g.
Proof.
  induction g as [|a g IH]; [done |].
  rewrite append_cons. simpl. by rewrite IH.
Qed.

Lemma left_app (g s : string) :
  QStr.left (Z.of_nat (String.length g)) (g ++ s) = g.
Proof.
  unfold QStr.left.
  destruct (Z.ltb_spec (Z.of_nat (String.length g)) 0); [lia |].
  rewrite Nat2Z.id. apply left_nat_app.
Qed.

Lemma beforeLast_None (s : string) :
  beforeLast c s = None ↔ QStr.contains c s = false.
Proof.
  induction s as [|a s IH]; simpl; [done |].
  destruct (beforeLast c s) as [p|].
  - split; [done |]. intros [_ Hs]%orb_false_iff.
    apply IH in Hs. done.
  - destruct (Ascii.eqb a c); simpl; [done |]. by rewrite <- IH.
Qed.

Lemma lastIndexOf_from_beforeLast (s p : string) (i acc : Z) :
  beforeLast c s = Some p →
  QStr.lastIndexOf_from c s i acc = (i + Z.of_nat (String.length p))%Z
  ∧ QStr.left_nat (String.length p) s = p.
Proof.
  revert p i acc. induction s as [|a s IH]; intros p i acc; simpl; [done |].
  destruct (beforeLast c s) as [p'|] eqn:Hp'.
  - intros [= <-]. destruct (IH p' (i + 1)%Z
      (if Ascii.eqb a c then i else acc) eq_refl) as [-> Hl].
    simpl. rewrite Hl. split; [lia | done].
  - apply beforeLast_None in Hp'.
    destruct (Ascii.eqb a c); [|done]. intros [= <-].
    rewrite lastIndexOf_from_absent by done. simpl. split; [lia | done].
Qed.

Lemma split_nonempty (s : string) : QStr.split c s ≠ [].
Proof.
  induction s as [|a s IH]; simpl; [done |].
  destruct (Ascii.eqb a c); [done |]. by destruct (QStr.split c s).
Qed.

Lemma join_cons (sep s : string) (l : list string) :
  l ≠ [] → QStr.join sep (s :: l) = s ++ sep ++ QStr.join sep l.
Proof. by destruct l. Qed.

Lemma removelast_cons2 {A} (x y : A) (l : list A) :
  removelast (x :: y :: l) = x :: removelast (y :: l).
Proof. done. Qed.

(** How [split] sees the last separator. *)
Lemma split_beforeLast (s : string) :
  match beforeLast c s with
  | None => ∃ p, QStr.split c s = [p]
  | Some q =>
      removelast (QStr.split c s) ≠ []
      ∧ QStr.join (String c "") (removelast (QStr.split c s)) = q
  end.
Proof.
  induction s as [|a s IH]; simpl; [by eexists |].
  destruct (Ascii.eqb_spec a c) as [->|Hac].
  - destruct (beforeLast c s) as [q|].
    + destruct IH as [Hne <-].
      destruct (QStr.split c s) as [|p ps]; [done |].
      rewrite removelast_cons2. split; [done |].
      rewrite join_cons by done.
      by rewrite append_nil_l, append_cons, append_nil_l.
    + destruct IH as [p ->]. done.
  - destruct (beforeLast c s) as [q|].
    + destruct IH as [Hne <-].
      destruct (QStr.split c s) as [|p [|p' ps]]; [done | done |].
      rewrite !removelast_cons2. split; [done |].
      destruct (removelast (p' :: ps)) as [|r rs].
      * reflexivity.
      * rewrite !join_cons by done. by rewrite append_cons.
    + destruct IH as [p ->]. by eexists.
Qed.

(** [left (lastIndexOf c s)], guarded as in [endGroup], drops the last
    piece of [s]. *)
Lemma left_lastIndexOf (s : string) :
  (if (0 <=? QStr.lastIndexOf c s)%Z
   then QStr.left (QStr.lastIndexOf c s) s else "")
  = QStr.join (String c "") (removelast (QStr.split c s)).
Proof.
  pose proof (split_beforeLast s) as Hsp.
  destruct (beforeLast c s) as [q|] eqn:Hq.
  - destruct Hsp as [_ ->].
    destruct (lastIndexOf_from_beforeLast s q 0 (-1) Hq) as [Hidx Hleft].
    unfold QStr.lastIndexOf. rewrite Hidx.
    destruct (Z.leb_spec 0 (0 + Z.of_nat (String.length q))); [|lia].
    unfold QStr.left.
    destruct (Z.ltb_spec (0 + Z.of_nat (String.length q)) 0); [lia |].
    by rewrite Z.add_0_l, Nat2Z.id.
  - destruct Hsp as [p ->]. apply beforeLast_None in Hq.
    by rewrite lastIndexOf_absent.
Qed.

End qstring.

(** ** The group namespace *)

Section groups.
Implicit Types (d : UniSettingsPrivate) (stack : list string).

Lemma join_snoc (sep s : string) stack :
  stack ≠ [] → QStr.join sep (stack ++ [s]) = QStr.join sep stack ++ sep ++ s.
Proof.
  induction stack as [|x [|y l] IH]; intros Hne; [done | done |].
  change (QStr.join sep (x :: (y :: l) ++ [s])
          = QStr.join sep (x :: y :: l) ++ sep ++ s).
  rewrite (join_cons sep x ((y :: l) ++ [s])) by done.
  rewrite IH by done. rewrite (join_cons sep x (y :: l)) by done.
  by rewrite !append_assoc.
Qed.

Lemma append_nonempty_l (s1 s2 : string) : s1 ≠ "" → s1 ++ s2 ≠ "".
Proof. by destruct s1. Qed.

Lemma join_segments_nonempty (sep : string) stack :
  Forall segment stack → stack ≠ [] → QStr.join sep stack ≠ "".
Proof.
  intros Hall Hne. destruct Hall as [|x l [Hx _] Hl]; [done |].
  destruct l; [done |]. rewrite join_cons by done.
  by apply append_nonempty_l.
Qed.

Lemma group_beginGroup d (prefix : string) :
  group (beginGroup d prefix)
  = if QStr.isEmpty (group d) then prefix else group d ++ "/" ++ prefix.
Proof. unfold beginGroup, group. by destruct (QStr.isEmpty (currentGroup d)). Qed.

Lemma group_endGroup d :
  group (endGroup d)
  = QStr.join "/" (removelast (QStr.split slash (group d))).
Proof.
  unfold group, endGroup. rewrite <- left_lastIndexOf.
  by destruct (0 <=? QStr.lastIndexOf slash (currentGroup d))%Z.
Qed.

Lemma endGroup_empty d : group d = "" → endGroup d = d.
Proof. destruct d. unfold group, endGroup. simpl. by intros ->. Qed.

Lemma group_pushGroups d stack :
  group d = "" → Forall segment stack →
  group (pushGroups d stack) = QStr.join "/" stack.
Proof.
  intros Hd. induction stack as [|s stack IH] using rev_ind; intros Hall.
  - done.
  - apply Forall_app in Hall as [Hall _]. unfold pushGroups in *.
    rewrite foldl_app. simpl. rewrite group_beginGroup, IH by done.
    destruct stack as [|x l]; [done |].
    rewrite join_snoc by done.
    pose proof (join_segments_nonempty "/" (x :: l) Hall) as Hne.
    destruct (QStr.join "/" (x :: l)); [by destruct Hne | done].
Qed.

Lemma group_endGroup_pushGroups d stack :
  group d = "" → Forall segment stack →
  group (endGroup (pushGroups d stack)) = QStr.join "/" (removelast stack).
Proof.
  intros Hd Hall. destruct stack as [|s stack _] using rev_ind.
  - by rewrite endGroup_empty.
  - rewrite removelast_last.
    pose proof Hall as [Hstack [[_ Hs] _]%Forall_cons]%Forall_app.
    unfold group at 1, endGroup. fold (group (pushGroups d (stack ++ [s]))).
    rewrite group_pushGroups by done.
    destruct stack as [|x l].
    + simpl. by rewrite lastIndexOf_absent.
    + rewrite join_snoc by done.
      change ("/" ++ s) with (String slash s).
      rewrite lastIndexOf_sep by done.
      destruct (Z.leb_spec 0 (Z.of_nat (String.length (QStr.join "/" (x :: l)))));
        [|lia].
      simpl currentGroup. apply left_app.
Qed.

End groups.

(** C7.  Scoped key namespace.  For every instance: the effective key of a
    leaf is the leaf alone when no group is active and the current group, a
    "/" and the leaf otherwise; [beginGroup(prefix)] appends the prefix
    after a "/" when a group is active and sets it otherwise; [endGroup()]
    drops exactly the last "/"-delimited piece of the current group; with no
    active group [endGroup()] changes nothing.  And for every stack of group
    segments pushed on an instance with no active group: [group()] is the
    segments joined by "/", the effective key is the leaf alone for the
    empty stack and the joined segments, "/" and the leaf otherwise, and
    [endGroup()] leaves the stack without its last segment. *)
Theorem group_namespace (d : UniSettingsPrivate) (stack : list string)
    (leaf prefix : string) :
  fullKey d leaf
    = (if QStr.isEmpty (group d) then leaf else group d ++ "/" ++ leaf)
  ∧ group (beginGroup d prefix)
    = (if QStr.isEmpty (group d) then prefix else group d ++ "/" ++ prefix)
  ∧ group (endGroup d)
    = QStr.join "/" (removelast (QStr.split slash (group d)))
  ∧ (group d = "" → endGroup d = d)
  ∧ (group d = "" → Forall segment stack →
     group (pushGroups d stack) = QStr.join "/" stack
     ∧ fullKey (pushGroups d stack) leaf
       = match stack with
         | [] => leaf
         | _ :: _ => QStr.join "/" stack ++ "/" ++ leaf
         end
     ∧ group (beginGroup (pushGroups d stack) prefix)
       = match stack with
         | [] => prefix
         | _ :: _ => QStr.join "/" stack ++ "/" ++ prefix
         end
     ∧ group (endGroup (pushGroups d stack))
       = QStr.join "/" (removelast stack)).
Proof.
  split; [done |]. split; [apply group_beginGroup |].
  split; [apply group_endGroup |]. split; [apply endGroup_empty |].
  intros Hd Hall.
  pose proof (group_pushGroups d stack Hd Hall) as Hg.
  split; [done |].
  assert (Hempty : QStr.isEmpty (QStr.join "/" stack)
                   = match stack with [] => true | _ => false end).
  { destruct stack as [|x l]; [done |].
    pose proof (join_segments_nonempty "/" (x :: l) Hall) as Hne.
    destruct (QStr.join "/" (x :: l)); [by destruct Hne | done]. }
  split; [|split].
  - unfold fullKey. fold (group (pushGroups d stack)).
    rewrite Hg, Hempty. by destruct stack.
  - rewrite group_beginGroup, Hg, Hempty. by destruct stack.
  - by apply group_endGroup_pushGroups.
Qed.

Lemma group_namespace_witness :
  let d := newApplication (mkFS ∅ true) "editor" in
  group (pushGroups d ["ui"; "theme"]) = "ui/theme"
  ∧ fullKey (pushGroups d ["ui"; "theme"]) "dark" = "ui/theme/dark"
  ∧ group (endGroup (pushGroups d ["ui"; "theme"])) = "ui".
Proof.
  intros d.
  assert (Hseg : Forall segment ["ui"; "theme"]).
  { repeat constructor; done. }
  destruct (group_namespace d ["ui"; "theme"] "dark" "x")
    as (_ & _ & _ & _ & H).
  destruct (H eq_refl Hseg) as (Hg & Hk & _ & He).
  exact (conj Hg (conj Hk He)).
Defined.

(** ** The snapshot differencer *)

Section differencer.
Implicit Types (q : QSettings) (st : DiffState) (k key : string).
Implicit Types (cached disk : gmap string QVariant).

Lemma allKeys_elem q k : k ∈ QS.allKeys q ↔ is_Some (QS.view q !! k).
Proof.
  unfold QS.allKeys. rewrite list_elem_of_fmap. split.
  - intros [[k' v] [-> Hin]]. apply elem_of_map_to_list in Hin. by eexists.
  - intros [v Hv]. exists (k, v). split; [done |].
    by apply elem_of_map_to_list.
Qed.

Lemma allKeys_NoDup q : NoDup (QS.allKeys q).
Proof. apply NoDup_fst_map_to_list. Qed.

Lemma value_view q k v : QS.view q !! k = Some v → QS.value q k Invalid = v.
Proof. unfold QS.value. by intros ->. Qed.

(** The test of the first loop holds exactly when the cache does not hold
    the key with the new value. *)
Lemma differs_spec cached k (newValue : QVariant) :
  negb (hash_contains cached k) || bool_decide (newValue ≠ hash_value cached k)
  = bool_decide (cached !! k ≠ Some newValue).
Proof.
  unfold hash_contains, hash_value. destruct (cached !! k) as [old|]; simpl.
  - apply bool_decide_ext. split; congruence.
  - done.
Qed.

Lemma diffPresent_delta q st key k :
  (diffPresent q st key).1 !! k
  = if decide (k = key)
    then if decide (st.2 !! key = Some (QS.value q key Invalid))
         then st.1 !! key else Some (QS.value q key Invalid)
    else st.1 !! k.
Proof.
  unfold diffPresent. rewrite differs_spec.
  destruct (decide (st.2 !! key = Some (QS.value q key Invalid))) as [Heq|Hne].
  - rewrite bool_decide_false by (by intros ?).
    destruct (decide (k = key)) as [->|]; done.
  - rewrite bool_decide_true by done. simpl.
    destruct (decide (k = key)) as [->|].
    + by rewrite lookup_insert_eq.
    + by rewrite lookup_insert_ne.
Qed.

Lemma diffPresent_cache q st key k :
  (diffPresent q st key).2 !! k
  = if decide (k = key) then Some (QS.value q key Invalid) else st.2 !! k.
Proof.
  unfold diffPresent. rewrite differs_spec.
  destruct (decide (st.2 !! key = Some (QS.value q key Invalid))) as [Heq|Hne].
  - rewrite bool_decide_false by (by intros ?).
    destruct (decide (k = key)) as [->|]; done.
  - rewrite bool_decide_true by done. simpl.
    destruct (decide (k = key)) as [->|].
    + by rewrite lookup_insert_eq.
    + by rewrite lookup_insert_ne.
Qed.

(** The first loop, over distinct keys. *)
Lemma foldl_diffPresent q (l : list string) st k :
  NoDup l →
  let st' := foldl (diffPresent q) st l in
  (k ∈ l →
     st'.2 !! k = Some (QS.value q k Invalid)
     ∧ st'.1 !! k = if decide (st.2 !! k = Some (QS.value q k Invalid))
                    then st.1 !! k else Some (QS.value q k Invalid))
  ∧ (k ∉ l → st'.1 !! k = st.1 !! k ∧ st'.2 !! k = st.2 !! k).
Proof.
  intros Hnd. revert st. induction Hnd as [|x l Hx Hnd IH]; intros st; simpl.
  - split; [by intros ?%elem_of_nil | done].
  - destruct (IH (diffPresent q st x)) as [IHin IHout]. split.
    + intros [->|Hin]%elem_of_cons.
      * destruct (IHout Hx) as [-> ->].
        rewrite diffPresent_delta, diffPresent_cache.
        by destruct (decide (x = x)).
      * assert (k ≠ x) by (by intros ->).
        destruct (IHin Hin) as [-> ->].
        rewrite diffPresent_delta, diffPresent_cache.
        by destruct (decide (k = x)).
    + intros [Hne Hout]%not_elem_of_cons.
      destruct (IHout Hout) as [-> ->].
      rewrite diffPresent_delta, diffPresent_cache.
      by destruct (decide (k = x)).
Qed.

(** The second loop. *)
Lemma foldl_diffRemoved (l : list string) st k :
  let st' := foldl diffRemoved st l in
  (k ∈ l → st'.1 !! k = Some Invalid ∧ st'.2 !! k = None)
  ∧ (k ∉ l → st'.1 !! k = st.1 !! k ∧ st'.2 !! k = st.2 !! k).
Proof.
  revert st. induction l as [|x l IH]; intros st; simpl.
  - split; [by intros ?%elem_of_nil | done].
  - destruct (IH (diffRemoved st x)) as [IHin IHout].
    destruct (decide (k ∈ l)) as [Hin|Hout].
    + split; [by intros _; apply IHin |].
      intros [_ ?]%not_elem_of_cons. done.
    + destruct (IHout Hout) as [-> ->]. unfold diffRemoved; simpl. split.
      * intros [->|?]%elem_of_cons; [|done].
        by rewrite lookup_insert_eq, lookup_delete_eq.
      * intros [Hne _]%not_elem_of_cons.
        by rewrite lookup_insert_ne, lookup_delete_ne.
Qed.

(** Both loops together compute the delta and bring the cache to the
    content of the store. *)
Lemma diffLoops_spec q cached :
  diffLoops q cached = (delta (QS.view q) cached, QS.view q).
Proof.
  unfold diffLoops.
  set (st1 := foldl (diffPresent q) (∅, cached) (QS.allKeys q)).
  set (removed := elements (dom cached ∖ list_to_set (QS.allKeys q))).
  assert (Hrem : ∀ k, k ∈ removed
                      ↔ is_Some (cached !! k) ∧ QS.view q !! k = None).
  { intros k. unfold removed.
    rewrite elem_of_elements, elem_of_difference, elem_of_dom,
      elem_of_list_to_set, allKeys_elem, <- eq_None_not_Some. done. }
  assert (Hpoint : ∀ k,
    (foldl diffRemoved st1 removed).1 !! k
      = deltaAt (QS.view q !! k) (cached !! k)
    ∧ (foldl diffRemoved st1 removed).2 !! k = QS.view q !! k).
  { intros k.
    destruct (foldl_diffRemoved removed st1 k) as [Hin2 Hout2].
    destruct (foldl_diffPresent q (QS.allKeys q) (∅, cached) k
                (allKeys_NoDup q)) as [Hin1 Hout1].
    fold st1 in Hin1, Hout1. simpl in Hin1, Hout1.
    destruct (QS.view q !! k) as [v|] eqn:Hv.
    - assert (Hk : k ∈ QS.allKeys q) by (apply allKeys_elem; by eexists).
      assert (Hnr : k ∉ removed) by (rewrite Hrem; intros [_ ?]; congruence).
      destruct (Hout2 Hnr) as [-> ->]. destruct (Hin1 Hk) as [-> ->].
      rewrite (value_view q k v Hv). simpl.
      destruct (decide (cached !! k = Some v)); [|done].
      by rewrite lookup_empty.
    - assert (Hk : k ∉ QS.allKeys q).
      { rewrite allKeys_elem, Hv. by intros [? ?]. }
      destruct (Hout1 Hk) as [H1 H2]. simpl.
      destruct (cached !! k) as [old|] eqn:Hc.
      + assert (Hr : k ∈ removed) by (rewrite Hrem, Hc; eauto).
        by destruct (Hin2 Hr) as [-> ->].
      + assert (Hnr : k ∉ removed).
        { rewrite Hrem, Hc. by intros [[? ?] _]. }
        destruct (Hout2 Hnr) as [-> ->]. by rewrite H1, H2, lookup_empty. }
  destruct (foldl diffRemoved st1 removed) as [ch ca] eqn:Hfold.
  f_equal; apply map_eq; intros k; destruct (Hpoint k) as [H1 H2]; simpl in *.
  - unfold delta. rewrite lookup_merge, H1.
    by destruct (QS.view q !! k), (cached !! k).
  - done.
Qed.

Lemma delta_lookup disk cached k :
  delta disk cached !! k = deltaAt (disk !! k) (cached !! k).
Proof.
  unfold delta. rewrite lookup_merge. by destruct (disk !! k), (cached !! k).
Qed.

Lemma delta_same disk : delta disk disk = ∅.
Proof.
  apply map_eq; intros k. rewrite delta_lookup, lookup_empty.
  destruct (disk !! k) as [v|]; simpl; [|done]. by rewrite decide_True.
Qed.

End differencer.

(** ** The backing store *)

Section store.
Implicit Types (q : QSettings) (fs : FileSystem) (k name : string).

Lemma view_clean name (m : gmap string QVariant) (st : Status) :
  QS.view (mkQS name m ∅ ∅ st) = m.
Proof.
  unfold QS.view; simpl. rewrite (left_id_L ∅ (∪)).
  apply map_filter_id. intros i x _. simpl. set_solver.
Qed.

Lemma view_open fs name : QS.view (QS.open fs name) = readFile fs name.
Proof. apply view_clean. Qed.

Lemma view_added q k (v : QVariant) :
  addedKeys q !! k = Some v → QS.view q !! k = Some v.
Proof. intros H. unfold QS.view. apply lookup_union_Some_raw. by left. Qed.

Lemma dirty_false q :
  QS.dirty q = false ↔ addedKeys q = ∅ ∧ removedKeys q = ∅.
Proof.
  unfold QS.dirty. rewrite negb_false_iff, andb_true_iff.
  by rewrite !bool_decide_eq_true.
Qed.

Lemma dirty_setValue q k (v : QVariant) : QS.dirty (QS.setValue q k v) = true.
Proof.
  destruct (QS.dirty (QS.setValue q k v)) eqn:Hd; [done |].
  apply dirty_false in Hd as [Hd _]. simpl in Hd.
  by apply insert_non_empty in Hd.
Qed.

Lemma readFile_ext fs fs' name :
  files fs' = files fs → readFile fs' name = readFile fs name.
Proof. unfold readFile. by intros ->. Qed.

Lemma readFile_writeFile fs name (m : gmap string QVariant) :
  readFile (writeFile fs name m) name = m.
Proof. unfold readFile, writeFile; simpl. by rewrite lookup_insert_eq. Qed.

Lemma files_writeFile_ne fs name name' (m : gmap string QVariant) :
  name ≠ name' → files (writeFile fs name m) !! name' = files fs !! name'.
Proof. intros. unfold writeFile; simpl. by rewrite lookup_insert_ne. Qed.

(** The three ways [sync] can go. *)
Lemma sync_cases fs q :
  (QS.dirty q = false ∧ QS.sync fs q = (fs, reloaded fs q))
  ∨ (QS.dirty q = true ∧ writable fs = true
     ∧ QS.sync fs q
       = (writeFile fs (fileName q) (QS.view (reloaded fs q)),
          mkQS (fileName q) (QS.view (reloaded fs q)) ∅ ∅ (status q)))
  ∨ (QS.dirty q = true ∧ writable fs = false
     ∧ QS.sync fs q
       = (fs, mkQS (fileName q) (readFile fs (fileName q)) (addedKeys q)
                (removedKeys q) AccessError)).
Proof.
  unfold QS.sync. fold (reloaded fs q).
  destruct (QS.dirty q); [|by left].
  destruct (writable fs); right; [by left | by right].
Qed.

Lemma sync_view fs q : QS.view (QS.sync fs q).2 = QS.view (reloaded fs q).
Proof.
  destruct (sync_cases fs q) as [[_ ->]|[(_ & _ & ->)|(_ & _ & ->)]]; simpl.
  - done.
  - apply view_clean.
  - done.
Qed.

Lemma sync_fileName fs q : fileName (QS.sync fs q).2 = fileName q.
Proof.
  by destruct (sync_cases fs q) as [[_ ->]|[(_ & _ & ->)|(_ & _ & ->)]].
Qed.

Lemma sync_writable fs q : writable (QS.sync fs q).1 = writable fs.
Proof.
  by destruct (sync_cases fs q) as [[_ ->]|[(_ & _ & ->)|(_ & _ & ->)]].
Qed.

(** Only the object's own file is written. *)
Lemma sync_other_file fs q name :
  name ≠ fileName q → files (QS.sync fs q).1 !! name = files fs !! name.
Proof.
  intros Hne.
  destruct (sync_cases fs q) as [[_ ->]|[(_ & _ & ->)|(_ & _ & ->)]]; simpl;
    [done | | done].
  by rewrite lookup_insert_ne.
Qed.



(** A second [sync] over the same file contents answers as the first. *)
Lemma sync_again fs fs' q :
  files fs' = files (QS.sync fs q).1 →
  QS.view (QS.sync fs' (QS.sync fs q).2).2 = QS.view (QS.sync fs q).2.
Proof.
  intros Hfiles. rewrite sync_view. unfold reloaded.
  rewrite (readFile_ext _ _ _ Hfiles), sync_fileName.
  destruct (sync_cases fs q) as [[_ Hs]|[(_ & _ & Hs)|(_ & _ & Hs)]];
    rewrite Hs; simpl.
  - done.
  - by rewrite readFile_writeFile, !view_clean.
  - done.
Qed.

End store.

(** ** Detection passes and the timer callbacks *)

Section detection.
Implicit Types (fs : FileSystem) (d : UniSettingsPrivate).
Implicit Types (changes : gmap string QVariant) (s : Signal).

Lemma detectChanges_armed fs d :
  ignoreNextChange d = true →
  detectChanges fs d = (fs, with_ignoreNextChange false d, ∅).
Proof. unfold detectChanges. by intros ->. Qed.

Lemma detectChanges_clear fs d :
  ignoreNextChange d = false →
  detectChanges fs d
  = ((QS.sync fs (settings d)).1,
     with_cachedValues (QS.view (QS.sync fs (settings d)).2)
       (with_settings (QS.sync fs (settings d)).2 d),
     delta (QS.view (QS.sync fs (settings d)).2) (cachedValues d)).
Proof.
  unfold detectChanges. intros ->.
  destruct (QS.sync fs (settings d)) as [fs' q]. simpl.
  by rewrite diffLoops_spec.
Qed.

Lemma detectAppChanges_general fs d (path app : string) :
  detectAppChanges fs d path app
  = (with_appCachedValues (<[app := readFile fs path]> (appCachedValues d)) d,
     delta (readFile fs path) (default ∅ (appCachedValues d !! app))).
Proof. unfold detectAppChanges. by rewrite diffLoops_spec, view_open. Qed.

Lemma emitExternal_elem (owner : string) changes s :
  s ∈ emitExternal owner changes
  ↔ ∃ k v, s = externalValueChanged owner k v ∧ changes !! k = Some v.
Proof.
  unfold emitExternal. rewrite list_elem_of_fmap. split.
  - intros [[k v] [-> Hin]]. exists k, v.
    by apply elem_of_map_to_list in Hin.
  - intros (k & v & -> & Hk). exists (k, v).
    split; [done |]. by apply elem_of_map_to_list.
Qed.

Lemma emitBoth_elem (owner : string) changes s :
  s ∈ emitBoth owner changes
  ↔ ∃ k v, changes !! k = Some v
           ∧ (s = valueChanged k v ∨ s = externalValueChanged owner k v).
Proof.
  unfold emitBoth. rewrite list_elem_of_join. split.
  - intros (l & Hs & Hl). apply list_elem_of_fmap in Hl as [[k v] [-> Hin]].
    apply elem_of_map_to_list in Hin. exists k, v. split; [done |].
    simpl in Hs. apply elem_of_cons in Hs as [->|Hs]; [by left |].
    apply list_elem_of_singleton in Hs as ->. by right.
  - intros (k & v & Hk & Hs).
    exists [valueChanged k v; externalValueChanged owner k v]. split.
    + destruct Hs as [->| ->]; [by left | by right; left].
    + apply list_elem_of_fmap. exists (k, v). split; [done |].
      by apply elem_of_map_to_list.
Qed.

Lemma emitExternal_empty (owner : string) : emitExternal owner ∅ = [].
Proof. unfold emitExternal. by rewrite map_to_list_empty. Qed.

Lemma emitBoth_empty (owner : string) : emitBoth owner ∅ = [].
Proof. unfold emitBoth. by rewrite map_to_list_empty. Qed.

(** The loop over the directory only adds signals of sibling files. *)
Lemma foldl_checkApp_signals fs (l : list string)
    (st : UniSettingsPrivate * list Signal) s :
  s ∈ (foldl (checkApp fs) st l).2 →
  s ∈ st.2 ∨ ∃ app k v, s = externalValueChanged app k v ∧ app ≠ "system".
Proof.
  revert st. induction l as [|x l IH]; intros st; simpl; [by left |].
  intros [Hs|Hs]%IH; [|by right].
  unfold checkApp in Hs.
  destruct (bool_decide_reflect (baseName x ≠ "system")) as [Hx|_]; [|by left].
  destruct (detectAppChanges fs st.1 x (baseName x)) as [d1 appChanges].
  simpl in Hs. apply elem_of_app in Hs as [Hs|Hs]; [by left |].
  apply emitExternal_elem in Hs as (k & v & -> & _). right.
  by exists (baseName x), k, v.
Qed.

Lemma systemTimeout_signals fs d s :
  s ∈ out_signals (systemTimeout fs d) →
  (∃ k v, s = externalValueChanged "system" k v
          ∧ (detectChanges fs (with_debounceTimer false d)).2 !! k = Some v)
  ∨ ∃ app k v, s = externalValueChanged app k v ∧ app ≠ "system".
Proof.
  unfold systemTimeout.
  destruct (detectChanges fs (with_debounceTimer false d))
    as [[fs1 d1] changes].
  destruct (foldl (checkApp fs1) (d1, emitExternal "system" changes)
              (entryInfoList fs1)) as [d2 sigs2] eqn:Hfold.
  simpl. intros Hs.
  assert (Hs' : s ∈ (foldl (checkApp fs1) (d1, emitExternal "system" changes)
                       (entryInfoList fs1)).2) by by rewrite Hfold.
  apply foldl_checkApp_signals in Hs' as [Hs'|Hs']; [|by right].
  left. by apply emitExternal_elem.
Qed.

Lemma appTimeout_signals fs d :
  out_signals (appTimeout fs d)
  = emitBoth (appName d) (detectChanges fs (with_debounceTimer false d)).2.
Proof.
  unfold appTimeout.
  destruct (detectChanges fs (with_debounceTimer false d))
    as [[fs1 d1] changes] eqn:Hdet. simpl. f_equal.
  unfold detectChanges in Hdet.
  destruct (ignoreNextChange (with_debounceTimer false d)).
  - by injection Hdet as _ <- _.
  - destruct (QS.sync fs (settings (with_debounceTimer false d))).
    by injection Hdet as _ <- _.
Qed.

(** An armed flag silences the own file for one timer pass. *)
Lemma onTimeout_armed fs d s :
  ignoreNextChange d = true →
  s ∈ out_signals (onTimeout fs d) →
  ∃ app k v, s = externalValueChanged app k v
             ∧ scope d = SystemScope ∧ app ≠ "system".
Proof.
  intros Harmed. unfold onTimeout. destruct (scope d) eqn:Hscope.
  - intros [(k & v & _ & Hk)|(app & k & v & -> & Happ)]%systemTimeout_signals.
    + rewrite detectChanges_armed in Hk by done. simpl in Hk.
      by rewrite lookup_empty in Hk.
    + by exists app, k, v.
  - rewrite appTimeout_signals, detectChanges_armed by done. simpl.
    rewrite emitBoth_empty. by intros ?%elem_of_nil.
Qed.

Lemma setValue_changed fs d (key : string) (v : QVariant) :
  QS.value (settings d) (fullKey d key) Invalid ≠ v →
  setValue fs d key v
  = let q2 := (QS.sync fs (QS.setValue (settings d) (fullKey d key) v)).2 in
    mkOutcome (QS.sync fs (QS.setValue (settings d) (fullKey d key) v)).1
      (with_cachedValues (<[fullKey d key := v]> (cachedValues d))
         (with_settings q2 (with_ignoreNextChange true d)))
      [valueChanged (fullKey d key) v].
Proof.
  intros Hne. unfold setValue. rewrite bool_decide_true by done. simpl.
  by destruct (QS.sync fs (QS.setValue (settings d) (fullKey d key) v)).
Qed.

Lemma setValue_same fs d (key : string) (v : QVariant) :
  QS.value (settings d) (fullKey d key) Invalid = v →
  setValue fs d key v = mkOutcome fs d [].
Proof.
  intros Heq. unfold setValue. by rewrite bool_decide_false by (by intros ?).
Qed.

End detection.

(** Until the timer expires nothing clears the flag or changes the scope. *)
Lemma run_keeps_armed (fs : FileSystem) (d : UniSettingsPrivate) (c : Call) :
  c ≠ CTimeout →
  scope (out_d (run c fs d)) = scope d
  ∧ (ignoreNextChange d = true → ignoreNextChange (out_d (run c fs d)) = true).
Proof.
  intros Hc. destruct c as [key v|key| | |prefix| | |]; simpl; [..|done].
  - unfold setValue. destruct (bool_decide _); [|done].
    simpl. by destruct (QS.sync fs _).
  - unfold remove. by destruct (QS.sync fs _).
  - unfold clear. by destruct (QS.sync fs _).
  - unfold sync. by destruct (QS.sync fs _).
  - unfold beginGroup. by destruct (negb _).
  - unfold endGroup. by destruct (0 <=? _)%Z.
  - by destruct (negb _).
Qed.

Lemma runCalls_keeps_armed (l : list (FileSystem * Call))
    (d : UniSettingsPrivate) :
  Forall (λ p, p.2 ≠ CTimeout) l →
  scope (runCalls l d) = scope d
  ∧ (ignoreNextChange d = true → ignoreNextChange (runCalls l d) = true).
Proof.
  intros Hl. revert d. induction Hl as [|[fs c] l Hc Hl IH]; intros d; [done |].
  unfold runCalls in *. simpl.
  destruct (IH (out_d (run c fs d))) as [-> Harm].
  destruct (run_keeps_armed fs d c Hc) as [-> Harm']. split; [done |].
  intros Hd. by apply Harm, Harm'.
Qed.

(** C1.  Self-write suppression.  With the Suppress-Next flag set,
    [detectChanges] clears the flag and returns the empty delta; the
    directory, the store object and the snapshot cache are left as they
    were.  After a [setValue(key, v)] that changed the stored value, only
    the local [valueChanged] has been emitted, and the next timer pass,
    whatever calls other than the timer come before it and whatever the
    directory holds by then, emits nothing about the instance's own file:
    nothing at all for an Application-scope instance, only signals of
    sibling files for the System-scope one. *)
Theorem suppress_next (fs : FileSystem) (d : UniSettingsPrivate) :
  (ignoreNextChange d = true →
   detectChanges fs d = (fs, with_ignoreNextChange false d, ∅))
  ∧ (∀ (key : string) (v : QVariant) (fs' : FileSystem)
       (l : list (FileSystem * Call)),
       QS.value (settings d) (fullKey d key) Invalid ≠ v →
       Forall (λ p, p.2 ≠ CTimeout) l →
       out_signals (setValue fs d key v) = [valueChanged (fullKey d key) v]
       ∧ ignoreNextChange (out_d (setValue fs d key v)) = true
       ∧ ∀ s, s ∈ out_signals
                    (onTimeout fs' (runCalls l (out_d (setValue fs d key v)))) →
              ∃ app k x, s = externalValueChanged app k x
                         ∧ scope d = SystemScope ∧ app ≠ "system").
Proof.
  split; [apply detectChanges_armed |].
  intros key v fs' l Hne Hl.
  destruct (runCalls_keeps_armed l (out_d (setValue fs d key v)) Hl)
    as [Hscope Harm].
  rewrite setValue_changed in * by done. simpl in *.
  split; [done |]. split; [done |].
  intros s Hs. apply onTimeout_armed in Hs; [|by apply Harm].
  by rewrite Hscope in Hs.
Qed.

Lemma suppress_next_witness :
  QS.value (settings editor0) (fullKey editor0 "theme") Invalid ≠ dark
  ∧ out_signals (setValue emptyDir editor0 "theme" dark)
    = [valueChanged "theme" dark]
  ∧ ignoreNextChange (out_d (setValue emptyDir editor0 "theme" dark)) = true.
Proof.
  assert (Hne : QS.value (settings editor0) (fullKey editor0 "theme") Invalid
                ≠ dark) by (vm_compute; discriminate).
  assert (Hl : Forall (λ p : FileSystem * Call, p.2 ≠ CTimeout)
                 [(editorDir, CFileChanged)])
    by (repeat constructor; discriminate).
  split; [exact Hne |].
  destruct (proj2 (suppress_next emptyDir editor0) "theme" dark editorDir
              [(editorDir, CFileChanged)] Hne Hl)
    as (Hsig & Hflag & _).
  exact (conj Hsig Hflag).
Defined.



Lemma delta_empty_iff (disk cached : gmap string QVariant) :
  delta disk cached = ∅ ↔ cached = disk.
Proof.
  split; [|intros ->; apply delta_same].
  intros Hempty. apply map_eq; intros k.
  assert (Hk : delta disk cached !! k = None) by by rewrite Hempty.
  rewrite delta_lookup in Hk.
  destruct (disk !! k) as [v|]; simpl in Hk.
  - by destruct (decide (cached !! k = Some v)).
  - by destruct (cached !! k).
Qed.

(** C6, as stated, fails: with the flag clear and a file that was edited
    since the cache was filled, the first of two consecutive passes returns
    a non-empty delta. *)
Lemma detectChanges_first_pass_counterexample :
  ignoreNextChange editor0 = false
  ∧ (detectChanges editorDir editor0).2 = {[ "theme" := dark ]}
  ∧ (detectChanges editorDir editor0).2 ≠ ∅.
Proof.
  split; [reflexivity |]. split; [by vm_compute |].
  intros H. apply (f_equal (λ m : gmap string QVariant, m !! "theme")) in H.
  vm_compute in H. discriminate.
Qed.

(** C6, amended.  With the Suppress-Next flag clear, of two consecutive
    calls of [detectChanges] with no change of the file contents in
    between, the second returns the empty delta and leaves the cache as the
    first left it; the first returns the delta between the store and the
    cache, which is empty exactly when the cache already equals the reloaded
    store. *)
Theorem detectChanges_twice (fs fs2 : FileSystem) (d : UniSettingsPrivate) :
  ignoreNextChange d = false →
  files fs2 = files (detectChanges fs d).1.1 →
  (detectChanges fs2 (detectChanges fs d).1.2).2 = ∅
  ∧ cachedValues (detectChanges fs2 (detectChanges fs d).1.2).1.2
    = cachedValues (detectChanges fs d).1.2
  ∧ ((detectChanges fs d).2 = ∅
     ↔ cachedValues d = QS.view (settings (detectChanges fs d).1.2)).
Proof.
  intros Hclear. rewrite (detectChanges_clear fs d) by done. simpl.
  intros Hfiles. rewrite detectChanges_clear by done. simpl.
  rewrite (sync_again fs fs2 (settings d) Hfiles).
  split; [apply delta_same |]. split; [done |]. apply delta_empty_iff.
Qed.

Lemma detectChanges_twice_witness :
  (detectChanges editorDir (detectChanges editorDir editor0).1.2).2 = ∅.
Proof.
  apply (detectChanges_twice editorDir editorDir editor0); reflexivity.
Defined.

(** C8.  Round trip.  For every key, every valid value [v] and every
    default, [value(key, default)] after [setValue(key, v)] on the same
    instance, the group unchanged, is [v]. *)
Theorem setValue_value (fs : FileSystem) (d : UniSettingsPrivate)
    (key : string) (v defaultValue : QVariant) :
  v ≠ Invalid →
  value (out_d (setValue fs d key v)) key defaultValue = v.
Proof.
  intros Hvalid.
  destruct (decide (QS.value (settings d) (fullKey d key) Invalid = v))
    as [Hsame|Hdiff].
  - rewrite setValue_same by done. simpl.
    unfold value, QS.value in *.
    destruct (QS.view (settings d) !! fullKey d key); simpl in *; congruence.
  - rewrite setValue_changed by done. simpl.
    unfold value, QS.value. simpl. change (fullKey _ key) with (fullKey d key).
    rewrite sync_view.
    rewrite (view_added _ (fullKey d key) v); [done |].
    simpl. apply lookup_insert_eq.
Qed.

Lemma setValue_value_witness :
  value (out_d (setValue emptyDir editor0 "theme" dark)) "theme" light = dark.
Proof. apply setValue_value. discriminate. Defined.

(** C10.  Writing the value that is already stored under the effective
    key changes nothing: the directory and the whole instance (store
    object, snapshot cache, Suppress-Next flag) are as before and no signal
    is emitted. *)
Theorem setValue_same_value_noop (fs : FileSystem) (d : UniSettingsPrivate)
    (key : string) (v : QVariant) :
  QS.value (settings d) (fullKey d key) Invalid = v →
  setValue fs d key v = mkOutcome fs d [].
Proof. apply setValue_same. Qed.

Lemma setValue_same_value_noop_witness :
  let o := setValue emptyDir editor0 "theme" dark in
  setValue (out_fs o) (out_d o) "theme" dark = mkOutcome (out_fs o) (out_d o) [].
Proof.
  intros o. apply setValue_same_value_noop. vm_compute. reflexivity.
Defined.

(** ** Sibling files in the System-scope timer callback *)

Section siblings.
Implicit Types (fs : FileSystem) (d : UniSettingsPrivate) (app x : string).
Implicit Types (st : UniSettingsPrivate * list Signal).

Lemma baseName_system : baseName "system" = "system".
Proof. reflexivity. Qed.

(** The loop body on a file that is not taken for the system file: the
    signals carry the base name of the file, and so does the entry of the
    sibling cache table. *)
Lemma checkApp_sibling fs st x :
  baseName x ≠ "system" →
  (checkApp fs st x).2
  = (st.2 ++ emitExternal (baseName x)
       (delta (readFile fs x)
          (default ∅ (appCachedValues st.1 !! baseName x))))%list
  ∧ appCachedValues (checkApp fs st x).1
    = <[baseName x := readFile fs x]> (appCachedValues st.1)
  ∧ x ∈ watcher (checkApp fs st x).1
  ∧ watcher st.1 ⊆ watcher (checkApp fs st x).1.
Proof.
  intros Hx. unfold checkApp. rewrite bool_decide_true by done.
  rewrite detectAppChanges_general. simpl.
  destruct (bool_decide_reflect (x ∈ watcher st.1)); simpl;
    repeat split; set_solver.
Qed.

(** A file whose base name is "system" is skipped. *)
Lemma checkApp_system fs st x :
  baseName x = "system" → checkApp fs st x = st.
Proof.
  intros Hx. unfold checkApp. by rewrite bool_decide_false by (by intros ?).
Qed.

Lemma external_app_elem app (l : list Signal) x
    (changes : gmap string QVariant) (k : string) (v : QVariant) :
  externalValueChanged app k v ∈ (l ++ emitExternal x changes)%list
  ↔ externalValueChanged app k v ∈ l ∨ (x = app ∧ changes !! k = Some v).
Proof.
  rewrite elem_of_app, emitExternal_elem. split.
  - intros [?|(k' & v' & [= -> -> ->] & ?)]; [by left | by right].
  - intros [?|[-> ?]]; [by left |]. right. by exists k, v.
Qed.

(** What the loop body keeps. *)
Lemma checkApp_frame fs st x :
  cachedValues (checkApp fs st x).1 = cachedValues st.1
  ∧ debounceTimer (checkApp fs st x).1 = debounceTimer st.1
  ∧ configPath (checkApp fs st x).1 = configPath st.1
  ∧ ignoreNextChange (checkApp fs st x).1 = ignoreNextChange st.1
  ∧ watcher st.1 ⊆ watcher (checkApp fs st x).1
  ∧ (∀ s, s ∈ st.2 → s ∈ (checkApp fs st x).2).
Proof.
  unfold checkApp. destruct (bool_decide (baseName x ≠ "system")); [|done].
  rewrite detectAppChanges_general. simpl.
  destruct (bool_decide_reflect (x ∈ watcher st.1)); simpl;
    repeat split; try done;
    try (intros s ?; apply elem_of_app; by left);
    apply union_subseteq_r.
Qed.

Lemma foldl_checkApp_keeps fs (l : list string) st :
  cachedValues (foldl (checkApp fs) st l).1 = cachedValues st.1
  ∧ debounceTimer (foldl (checkApp fs) st l).1 = debounceTimer st.1
  ∧ configPath (foldl (checkApp fs) st l).1 = configPath st.1
  ∧ ignoreNextChange (foldl (checkApp fs) st l).1 = ignoreNextChange st.1
  ∧ watcher st.1 ⊆ watcher (foldl (checkApp fs) st l).1
  ∧ (∀ s, s ∈ st.2 → s ∈ (foldl (checkApp fs) st l).2).
Proof.
  revert st. induction l as [|x l IH]; intros st; simpl; [done |].
  destruct (IH (checkApp fs st x)) as (-> & -> & -> & -> & Hw & Hs).
  destruct (checkApp_frame fs st x) as (-> & -> & -> & -> & Hw' & Hs').
  repeat (split; [done |]). split; [by etrans | auto].
Qed.

(** The loop body on a file of another base name leaves the entry and the
    signals of [app] alone. *)
Lemma checkApp_other fs st x app (k : string) (v : QVariant) :
  baseName x ≠ app →
  appCachedValues (checkApp fs st x).1 !! app = appCachedValues st.1 !! app
  ∧ (externalValueChanged app k v ∈ (checkApp fs st x).2
     ↔ externalValueChanged app k v ∈ st.2).
Proof.
  intros Hne. destruct (decide (baseName x = "system")) as [Hsys|Hsys].
  { by rewrite checkApp_system. }
  destruct (checkApp_sibling fs st x Hsys) as (-> & -> & _).
  rewrite lookup_insert_ne by done. split; [done |].
  rewrite external_app_elem. split; [intros [?|[? _]]; done | by left].
Qed.

Lemma foldl_checkApp_other fs (l : list string) st app
    (k : string) (v : QVariant) :
  (∀ y, y ∈ l → baseName y ≠ app) →
  appCachedValues (foldl (checkApp fs) st l).1 !! app
  = appCachedValues st.1 !! app
  ∧ (externalValueChanged app k v ∈ (foldl (checkApp fs) st l).2
     ↔ externalValueChanged app k v ∈ st.2).
Proof.
  revert st. induction l as [|x l IH]; intros st Hl; simpl; [done |].
  destruct (IH (checkApp fs st x)) as [-> ->].
  { intros y Hy. apply Hl. by right. }
  apply checkApp_other, Hl. by left.
Qed.


(** Every file that the loop does not skip is watched afterwards. *)
Lemma foldl_checkApp_watched fs (l : list string) st x :
  x ∈ l → baseName x ≠ "system" → x ∈ watcher (foldl (checkApp fs) st l).1.
Proof.
  intros Hin Hx. apply list_elem_of_split in Hin as (l1 & l2 & ->).
  rewrite foldl_app. simpl.
  destruct (checkApp_sibling fs (foldl (checkApp fs) st l1) x Hx)
    as (_ & _ & Hw & _).
  destruct (foldl_checkApp_keeps fs l2
              (checkApp fs (foldl (checkApp fs) st l1) x))
    as (_ & _ & _ & _ & Hsub & _).
  by apply Hsub.
Qed.

Lemma entryInfoList_elem fs app :
  app ∈ entryInfoList fs ↔ is_Some (files fs !! app).
Proof.
  unfold entryInfoList. rewrite list_elem_of_fmap. split.
  - intros [[k' v] [-> Hin]]. apply elem_of_map_to_list in Hin. by eexists.
  - intros [v Hv]. exists (app, v). split; [done |].
    by apply elem_of_map_to_list.
Qed.

Lemma rewatch_frame fs d :
  appCachedValues (rewatch fs d) = appCachedValues d
  ∧ watcher d ⊆ watcher (rewatch fs d).
Proof.
  unfold rewatch.
  destruct (negb (bool_decide (configPath d ∈ watcher d))
            && fileExists fs (configPath d)); simpl; set_solver.
Qed.

(** What the own-file pass leaves for the loop over the siblings. *)
Lemma detectChanges_frame fs d app :
  app ≠ fileName (settings d) →
  appCachedValues (detectChanges fs d).1.2 = appCachedValues d
  ∧ files (detectChanges fs d).1.1 !! app = files fs !! app
  ∧ ∀ k v, externalValueChanged app k v
           ∉ emitExternal (fileName (settings d)) (detectChanges fs d).2.
Proof.
  intros Hne. split; [|split].
  - unfold detectChanges. destruct (ignoreNextChange d); [done |].
    by destruct (QS.sync fs (settings d)).
  - unfold detectChanges. destruct (ignoreNextChange d); [done |].
    pose proof (sync_other_file fs (settings d) app Hne) as Hf.
    by destruct (QS.sync fs (settings d)).
  - intros k v (k' & v' & [= -> _ _] & _)%emitExternal_elem. done.
Qed.

(** The own-file pass adds no file but, at most, the own file. *)
Lemma detectChanges_files fs d x :
  is_Some (files (detectChanges fs d).1.1 !! x) →
  x = fileName (settings d) ∨ is_Some (files fs !! x).
Proof.
  destruct (decide (x = fileName (settings d))) as [|Hne]; [by left |].
  destruct (detectChanges_frame fs d x Hne) as (_ & -> & _). by right.
Qed.

End siblings.

Section discovery.
Implicit Types (fs : FileSystem) (d : UniSettingsPrivate) (app : string).

Lemma foldl_checkApp_frame fs (l : list string)
    (st : UniSettingsPrivate * list Signal) :
  scope (foldl (checkApp fs) st l).1 = scope st.1
  ∧ settings (foldl (checkApp fs) st l).1 = settings st.1.
Proof.
  revert st. induction l as [|x l IH]; intros st; simpl; [done |].
  destruct (IH (checkApp fs st x)) as [-> ->].
  unfold checkApp. destruct (bool_decide (baseName x ≠ "system")); [|done].
  unfold detectAppChanges. simpl.
  by destruct (negb (bool_decide (x ∈ watcher st.1))).
Qed.


Lemma rewatch_scope fs d :
  scope (rewatch fs d) = scope d ∧ settings (rewatch fs d) = settings d.
Proof.
  unfold rewatch.
  by destruct (negb (bool_decide (configPath d ∈ watcher d))
               && fileExists fs (configPath d)).
Qed.




End discovery.




(** ** Where the signals come from *)

(** C4, as stated, fails: the timer callback of an Application-scope
    instance, which is not a local write, emits [valueChanged] for a key
    that was edited in the file from outside. *)
Lemma timer_valueChanged_counterexample :
  scope editor0 = ApplicationScope
  ∧ isLocalWrite CTimeout = false
  ∧ out_signals (run CTimeout editorDir editor0)
    = [valueChanged "theme" dark; externalValueChanged "editor" "theme" dark].
Proof. repeat split; by vm_compute. Qed.

(** Where a signal of a call may come from. *)
Lemma signal_origin (fs : FileSystem) (d : UniSettingsPrivate) (c : Call)
    (s : Signal) :
  s ∈ out_signals (run c fs d) →
  match s with
  | externalValueChanged _ _ _ => c = CTimeout
  | valueChanged k v =>
      isLocalWrite c = true
      ∨ (c = CTimeout ∧ scope d = ApplicationScope
         ∧ externalValueChanged (appName d) k v ∈ out_signals (run c fs d))
  end.
Proof.
  destruct c as [key v|key| | |prefix| | |]; simpl.
  - unfold setValue. destruct (bool_decide _); [|by intros ?%elem_of_nil].
    simpl. destruct (QS.sync fs _) as [fs2 q2]. simpl.
    intros ->%list_elem_of_singleton. by left.
  - unfold remove. destruct (QS.sync fs _) as [fs2 q2]. simpl.
    intros ->%list_elem_of_singleton. by left.
  - unfold clear. destruct (QS.sync fs _) as [fs2 q2]. simpl.
    by intros ?%elem_of_nil.
  - unfold sync. destruct (QS.sync fs _) as [fs2 q2]. simpl.
    by intros ?%elem_of_nil.
  - by intros ?%elem_of_nil.
  - by intros ?%elem_of_nil.
  - by intros ?%elem_of_nil.
  - unfold onTimeout. destruct (scope d) eqn:Hscope.
    + by intros [(k & v & -> & _)|(app & k & v & -> & _)]%systemTimeout_signals.
    + rewrite appTimeout_signals. intros Hs.
      pose proof Hs as (k & v & Hk & [-> | ->])%emitBoth_elem; [|done].
      right. split; [done |]. split; [done |].
      apply emitBoth_elem. exists k, v. split; [done | by right].
Qed.

(** The signals of the System-scope timer callback about the own file are
    the entries of its delta. *)
Lemma systemTimeout_own (fs : FileSystem) (d : UniSettingsPrivate)
    (k : string) (v : QVariant) :
  externalValueChanged "system" k v ∈ out_signals (systemTimeout fs d)
  ↔ (detectChanges fs (with_debounceTimer false d)).2 !! k = Some v.
Proof.
  split.
  - intros [(k' & v' & [= -> ->] & Hd)|(a & k' & v' & [= <- _ _] & Ha)]
      %systemTimeout_signals; done.
  - intros Hd. unfold systemTimeout.
    destruct (detectChanges fs (with_debounceTimer false d))
      as [[fs1 d1] changes]. simpl in Hd.
    pose proof (foldl_checkApp_keeps fs1 (entryInfoList fs1)
                  (d1, emitExternal "system" changes))
      as (_ & _ & _ & _ & _ & Hs2).
    destruct (foldl (checkApp fs1) (d1, emitExternal "system" changes)
                (entryInfoList fs1)) as [d2 sigs2]. simpl in *.
    apply Hs2, emitExternal_elem. by exists k, v.
Qed.

(** C4, amended.  [externalValueChanged] is emitted only from the timer
    callback.  [valueChanged] is emitted synchronously from a local write or
    removal, once by a [setValue] that changes the value and once, with the
    Absent marker, by every [remove], and, for an Application-scope
    instance, also from the timer callback, which emits
    [valueChanged(key, value)] followed by
    [externalValueChanged(appName, key, value)] for each entry of the
    detected delta and nothing else; the timer callback of the System-scope
    instance emits only [externalValueChanged], tagged "system" exactly for
    the entries of the delta of the own file. *)
Theorem signal_sources (fs : FileSystem) (d : UniSettingsPrivate) :
  (∀ (c : Call) (s : Signal),
     s ∈ out_signals (run c fs d) →
     match s with
     | externalValueChanged _ _ _ => c = CTimeout
     | valueChanged k v =>
         isLocalWrite c = true
         ∨ (c = CTimeout ∧ scope d = ApplicationScope
            ∧ externalValueChanged (appName d) k v ∈ out_signals (run c fs d))
     end)
  ∧ (∀ (key : string) (v : QVariant),
       QS.value (settings d) (fullKey d key) Invalid ≠ v →
       out_signals (run (CSetValue key v) fs d)
       = [valueChanged (fullKey d key) v])
  ∧ (∀ key : string,
       out_signals (run (CRemove key) fs d)
       = [valueChanged (fullKey d key) Invalid])
  ∧ (scope d = ApplicationScope →
     out_signals (run CTimeout fs d)
     = emitBoth (appName d) (detectChanges fs (with_debounceTimer false d)).2
     ∧ ∀ (k : string) (v : QVariant),
         ((detectChanges fs (with_debounceTimer false d)).2 !! k = Some v
          ↔ valueChanged k v ∈ out_signals (run CTimeout fs d))
         ∧ ((detectChanges fs (with_debounceTimer false d)).2 !! k = Some v
            ↔ externalValueChanged (appName d) k v
                ∈ out_signals (run CTimeout fs d)))
  ∧ (scope d = SystemScope →
     ∀ (k : string) (v : QVariant),
       (detectChanges fs (with_debounceTimer false d)).2 !! k = Some v
       ↔ externalValueChanged "system" k v ∈ out_signals (run CTimeout fs d)).
Proof.
  split; [intros c s; apply signal_origin |].
  split; [intros key v Hdiff; simpl; by rewrite setValue_changed |].
  split.
  { intros key. simpl. unfold remove. by destruct (QS.sync fs _). }
  split.
  - intros Hscope. simpl. unfold onTimeout. rewrite Hscope.
    rewrite appTimeout_signals. split; [done |].
    intros k v. rewrite !emitBoth_elem. split; split.
    + intros Hk. exists k, v. split; [done | by left].
    + by intros (k' & v' & Hk & [[= -> ->]|?]).
    + intros Hk. exists k, v. split; [done | by right].
    + by intros (k' & v' & Hk & [?|[= -> ->]]).
  - intros Hscope k v. simpl. unfold onTimeout. rewrite Hscope.
    symmetry. apply systemTimeout_own.
Qed.

Lemma signal_sources_witness :
  out_signals (run (CSetValue "theme" dark) emptyDir editor0)
  = [valueChanged "theme" dark]
  ∧ out_signals (run CTimeout editorDir editor0)
    = emitBoth (appName editor0)
        (detectChanges editorDir (with_debounceTimer false editor0)).2.
Proof.
  destruct (signal_sources emptyDir editor0) as (_ & Hset & _).
  destruct (signal_sources editorDir editor0) as (_ & _ & _ & Happ & _).
  split.
  - apply Hset. vm_compute. discriminate.
  - exact (proj1 (Happ eq_refl)).
Defined.

(** ** Arming the Suppress-Next flag *)

(** [setValue] arms the flag exactly when it writes. *)
Lemma setValue_arms (fs : FileSystem) (d : UniSettingsPrivate) (key : string)
    (v : QVariant) :
  ignoreNextChange d = false →
  (ignoreNextChange (out_d (setValue fs d key v)) = true
   ↔ QS.value (settings d) (fullKey d key) Invalid ≠ v).
Proof.
  intros Hclear.
  destruct (decide (QS.value (settings d) (fullKey d key) Invalid = v))
    as [Hsame|Hdiff].
  - rewrite setValue_same by done. simpl. rewrite Hclear. by split.
  - rewrite setValue_changed by done. simpl. by split.
Qed.

(** [remove] and [clear] arm it whatever the store holds. *)
Lemma remove_arms (fs : FileSystem) (d : UniSettingsPrivate) (key : string) :
  ignoreNextChange (out_d (remove fs d key)) = true.
Proof. unfold remove. by destruct (QS.sync fs _). Qed.

Lemma clear_arms (fs : FileSystem) (d : UniSettingsPrivate) :
  ignoreNextChange (out_d (clear fs d)) = true.
Proof. unfold clear. by destruct (QS.sync fs _). Qed.

(** C5, the code at the failing inputs.  On an instance over an empty
    directory, with an empty store and the flag clear, [remove] of an absent
    key and [clear] leave the directory as it was and yet arm the flag; the
    next timer pass then drops an edit made to the file from outside. *)
Theorem remove_clear_arm_without_change :
  ignoreNextChange editor0 = false
  ∧ contains editor0 "theme" = false
  ∧ allKeys editor0 = []
  ∧ out_fs (remove emptyDir editor0 "theme") = emptyDir
  ∧ ignoreNextChange (out_d (remove emptyDir editor0 "theme")) = true
  ∧ out_fs (clear emptyDir editor0) = emptyDir
  ∧ ignoreNextChange (out_d (clear emptyDir editor0)) = true
  ∧ out_signals (onTimeout editorDir (out_d (remove emptyDir editor0 "theme")))
    = []
  ∧ out_signals (onTimeout editorDir (out_d (clear emptyDir editor0))) = [].
Proof. repeat split; by vm_compute. Qed.

(** ** Durable-write failures *)

Lemma sync_unwritable (fs : FileSystem) (q : QSettings) :
  writable fs = false → QS.dirty q = true →
  QS.sync fs q
  = (fs, mkQS (fileName q) (readFile fs (fileName q)) (addedKeys q)
           (removedKeys q) AccessError).
Proof. intros Hw Hd. unfold QS.sync. by rewrite Hd, Hw. Qed.

(** C9, as stated, fails: on a directory where nothing can be written,
    [setValue] persists nothing, and the caller observes what it observes
    when the write succeeds, the [valueChanged] signal and the new value
    from [value]; a following [sync] fails as silently.  Only the status of
    the store object, which the facade never reads, records the error. *)
Lemma setValue_write_failure_counterexample :
  writable fullDisk = false
  ∧ out_fs (setValue fullDisk editor0 "theme" dark) = fullDisk
  ∧ status (settings (out_d (setValue fullDisk editor0 "theme" dark)))
    = AccessError
  ∧ out_signals (setValue fullDisk editor0 "theme" dark)
    = out_signals (setValue emptyDir editor0 "theme" dark)
  ∧ value (out_d (setValue fullDisk editor0 "theme" dark)) "theme" Invalid
    = value (out_d (setValue emptyDir editor0 "theme" dark)) "theme" Invalid
  ∧ out_signals (sync fullDisk (out_d (setValue fullDisk editor0 "theme" dark)))
    = []
  ∧ out_fs (sync fullDisk (out_d (setValue fullDisk editor0 "theme" dark)))
    = fullDisk.
Proof. repeat split; by vm_compute. Qed.

(** C9, amended.  When the durable write of a [setValue] or [sync] fails,
    nothing is reported to the caller: both return nothing; [setValue]
    still arms Suppress-Next, updates the cache, answers later reads with
    the new value and emits the same [valueChanged] signal as when the
    write succeeds; [sync] emits no signal; and the file is left as it
    was.  The failure is recorded only in the status of the store object,
    where the change stays pending. *)
Theorem write_failure_silent (fs : FileSystem) (d : UniSettingsPrivate)
    (key : string) (v defaultValue : QVariant) :
  writable fs = false →
  QS.value (settings d) (fullKey d key) Invalid ≠ v →
  out_fs (setValue fs d key v) = fs
  ∧ status (settings (out_d (setValue fs d key v))) = AccessError
  ∧ QS.dirty (settings (out_d (setValue fs d key v))) = true
  ∧ ignoreNextChange (out_d (setValue fs d key v)) = true
  ∧ cachedValues (out_d (setValue fs d key v))
    = <[fullKey d key := v]> (cachedValues d)
  ∧ value (out_d (setValue fs d key v)) key defaultValue = v
  ∧ out_signals (setValue fs d key v) = [valueChanged (fullKey d key) v]
  ∧ out_signals (setValue fs d key v)
    = out_signals (setValue (mkFS (files fs) true) d key v)
  ∧ out_fs (sync fs (out_d (setValue fs d key v))) = fs
  ∧ out_signals (sync fs (out_d (setValue fs d key v))) = []
  ∧ status (settings (out_d (sync fs (out_d (setValue fs d key v)))))
    = AccessError
  ∧ value (out_d (sync fs (out_d (setValue fs d key v)))) key defaultValue
    = v.
Proof.
  intros Hw Hdiff. rewrite !setValue_changed by done. simpl.
  pose proof (dirty_setValue (settings d) (fullKey d key) v) as Hdirty.
  rewrite (sync_unwritable fs _ Hw Hdirty). simpl.
  assert (Hread : ∀ st,
    QS.value
      (mkQS (fileName (settings d)) (readFile fs (fileName (settings d)))
            (<[fullKey d key := v]> (addedKeys (settings d)))
            (removedKeys (settings d) ∖ {[fullKey d key]}) st)
      (fullKey d key) defaultValue = v).
  { intros st. unfold QS.value. rewrite (view_added _ (fullKey d key) v); [done |].
    simpl. apply lookup_insert_eq. }
  repeat (split; [done |]).
  split; [apply Hread |]. repeat (split; [done |]).
  unfold sync; simpl; rewrite sync_unwritable by done; simpl.
  repeat (split; [done |]). apply Hread.
Qed.

Lemma write_failure_silent_witness :
  out_fs (setValue fullDisk editor0 "theme" dark) = fullDisk
  ∧ status (settings (out_d (setValue fullDisk editor0 "theme" dark)))
    = AccessError
  ∧ value (out_d (setValue fullDisk editor0 "theme" dark)) "theme" light
    = dark.
Proof.
  destruct (write_failure_silent fullDisk editor0 "theme" dark light eq_refl)
    as (Hfs & Hst & _ & _ & _ & Hval & _).
  - vm_compute. discriminate.
  - exact (conj Hfs (conj Hst Hval)).
Defined.

(** * Further properties of the code *)

(** ** Groups *)

Lemma with_currentGroup_id (d : UniSettingsPrivate) :
  with_currentGroup (currentGroup d) d = d.
Proof. by destruct d. Qed.

(** [endGroup] on a group that ends in a separator and a piece without
    separator. *)
Lemma endGroup_sep (d : UniSettingsPrivate) (h p : string) :
  currentGroup d = h ++ String slash p →
  QStr.contains slash p = false →
  endGroup d = with_currentGroup h d.
Proof.
  intros Hg Hp. unfold endGroup. rewrite Hg, lastIndexOf_sep by done.
  destruct (Z.leb_spec 0 (Z.of_nat (String.length h))); [|lia].
  by rewrite left_app.
Qed.

Lemma endGroup_after_beginGroup (d : UniSettingsPrivate) (prefix : string) :
  QStr.contains slash prefix = false →
  endGroup (beginGroup d prefix) = d.
Proof.
  intros Hp. unfold beginGroup.
  destruct (QStr.isEmpty (currentGroup d)) eqn:Hg; simpl.
  - apply isEmpty_true in Hg. unfold endGroup. simpl.
    rewrite lastIndexOf_absent by done. simpl.
    destruct d; simpl in *. by subst.
  - rewrite (endGroup_sep _ (currentGroup d) prefix); [|done|done].
    by destruct d.
Qed.

(** X1.  [beginGroup(prefix)] followed by [endGroup()] gives back the
    instance as it was, for every prefix without "/" (the empty prefix
    included). *)
Theorem endGroup_beginGroup (d : UniSettingsPrivate) (prefix : string) :
  QStr.contains slash prefix = false →
  endGroup (beginGroup d prefix) = d.
Proof. apply endGroup_after_beginGroup. Qed.

Lemma endGroup_beginGroup_witness :
  endGroup (beginGroup (pushGroups editor0 ["ui"]) "theme")
  = pushGroups editor0 ["ui"].
Proof. apply endGroup_beginGroup. reflexivity. Defined.

(** X2.  One [endGroup()] pops one segment, not one [beginGroup]: after
    [beginGroup(p1/p2)], with [p2] free of "/", [endGroup()] leaves the
    group that [beginGroup(p1)] gives. *)
Theorem endGroup_pops_one_segment (d : UniSettingsPrivate) (p1 p2 : string) :
  QStr.contains slash p2 = false →
  endGroup (beginGroup d (p1 ++ "/" ++ p2)) = beginGroup d p1.
Proof.
  intros Hp. unfold beginGroup.
  destruct (QStr.isEmpty (currentGroup d)) eqn:Hg; simpl.
  - rewrite (endGroup_sep _ p1 p2); [by destruct d | done | done].
  - rewrite (endGroup_sep _ (currentGroup d ++ "/" ++ p1) p2); [|simpl|done].
    + by destruct d.
    + by rewrite !append_assoc.
Qed.

Lemma endGroup_pops_one_segment_witness :
  group (endGroup (beginGroup editor0 ("ui" ++ "/" ++ "theme"))) = "ui".
Proof.
  rewrite (endGroup_pops_one_segment editor0 "ui" "theme"); reflexivity.
Defined.

Lemma fullKey_under_prefix (d : UniSettingsPrivate) (prefix leaf : string) :
  QStr.isEmpty (group d) = false ∨ prefix ≠ "" →
  fullKey (beginGroup d prefix) leaf = fullKey d (prefix ++ "/" ++ leaf).
Proof.
  intros Hne. unfold fullKey, beginGroup, group in *.
  destruct (QStr.isEmpty (currentGroup d)) eqn:Hg; simpl.
  - destruct Hne as [?|Hp]; [done |]. by destruct prefix.
  - destruct (currentGroup d) as [|a g]; [done |].
    change (QStr.isEmpty (String a g ++ "/" ++ prefix)) with false.
    by rewrite !append_assoc.
Qed.

(** X3.  A key inside a group is the key prefixed by the group: unless
    both the current group and the prefix are empty, the effective key of
    [leaf] after [beginGroup(prefix)] is that of [prefix/leaf] before it,
    and [value] and [contains] read the same entry. *)
Theorem fullKey_beginGroup (d : UniSettingsPrivate) (prefix leaf : string)
    (defaultValue : QVariant) :
  QStr.isEmpty (group d) = false ∨ prefix ≠ "" →
  fullKey (beginGroup d prefix) leaf = fullKey d (prefix ++ "/" ++ leaf)
  ∧ value (beginGroup d prefix) leaf defaultValue
    = value d (prefix ++ "/" ++ leaf) defaultValue
  ∧ contains (beginGroup d prefix) leaf = contains d (prefix ++ "/" ++ leaf).
Proof.
  intros Hne.
  pose proof (fullKey_under_prefix d prefix leaf Hne) as Hk.
  split; [done |]. unfold value, contains.
  assert (Hs : settings (beginGroup d prefix) = settings d).
  { unfold beginGroup. by destruct (negb _). }
  by rewrite Hk, Hs.
Qed.

Lemma fullKey_beginGroup_witness :
  fullKey (beginGroup editor0 "ui") "theme" = fullKey editor0 "ui/theme".
Proof.
  apply (fullKey_beginGroup editor0 "ui" "theme" Invalid).
  right. discriminate.
Defined.

(** ** Construction *)

Lemma foldl_cache_lookup (q : QSettings) (l : list string)
    (c : gmap string QVariant) (k : string) :
  foldl (λ c' key, <[key := QS.value q key Invalid]> c') c l !! k
  = if decide (k ∈ l) then Some (QS.value q k Invalid) else c !! k.
Proof.
  revert c. induction l as [|x l IH]; intros c; simpl.
  - destruct (decide (k ∈ [])) as [?%elem_of_nil|]; done.
  - rewrite IH. destruct (decide (k ∈ l)) as [Hin|Hout].
    + rewrite decide_True; [done | by right].
    + destruct (decide (k = x)) as [->|Hne].
      * rewrite lookup_insert_eq. rewrite decide_True; [done | by left].
      * rewrite lookup_insert_ne by done.
        rewrite decide_False; [done |]. by intros [?|?]%elem_of_cons.
Qed.

(** [cacheAllValues] replaces the cache by the contents of the store. *)
Lemma cacheAllValues_spec (d : UniSettingsPrivate) :
  cachedValues (cacheAllValues d) = QS.view (settings d).
Proof.
  unfold cacheAllValues. simpl. apply map_eq; intros k.
  rewrite foldl_cache_lookup, lookup_empty.
  destruct (decide (k ∈ QS.allKeys (settings d))) as [Hin|Hout].
  - apply allKeys_elem in Hin as [v Hv]. by rewrite Hv, (value_view _ _ _ Hv).
  - rewrite allKeys_elem in Hout. by apply eq_None_not_Some in Hout.
Qed.

Lemma view_not_dirty (q : QSettings) :
  QS.dirty q = false → QS.view q = originalKeys q.
Proof.
  intros [Ha Hr]%dirty_false. destruct q; simpl in *; subst. apply view_clean.
Qed.

(** [sync] on a store in step with its file changes nothing. *)
Lemma sync_in_step (fs : FileSystem) (q : QSettings) :
  QS.dirty q = false → originalKeys q = readFile fs (fileName q) →
  QS.sync fs q = (fs, q).
Proof.
  intros Hd Ho. unfold QS.sync. rewrite Hd, <- Ho. by destruct q.
Qed.

(** A detection pass on an instance in step with its file finds nothing
    and changes nothing. *)
Lemma detectChanges_synced (fs : FileSystem) (d : UniSettingsPrivate) :
  synced fs d → ignoreNextChange d = false →
  detectChanges fs d = (fs, d, ∅).
Proof.
  intros (Hd & Ho & Hc) Hclear. rewrite detectChanges_clear by done.
  rewrite sync_in_step by done. simpl.
  rewrite view_not_dirty, <- Hc by done. rewrite delta_same.
  by destruct d.
Qed.

Lemma newPrivate_synced (fs : FileSystem) (app : string) (s : Scope) :
  synced fs (newPrivate fs app s).
Proof.
  unfold synced, newPrivate. split; [done |]. split; [done |].
  rewrite cacheAllValues_spec. simpl. apply view_open.
Qed.

(** X4.  An Application-scope instance is constructed in step with its
    file (a missing file counts as empty): the cache holds the contents of
    the file, the flag is clear, the file is watched when it exists, and a
    detection pass or a timer expiry over the same directory reports
    nothing. *)
Theorem newApplication_quiet (fs : FileSystem) (app : string) :
  cachedValues (newApplication fs app) = readFile fs app
  ∧ ignoreNextChange (newApplication fs app) = false
  ∧ (app ∈ watcher (newApplication fs app) ↔ is_Some (files fs !! app))
  ∧ (detectChanges fs (newApplication fs app)).2 = ∅
  ∧ out_signals (onTimeout fs (newApplication fs app)) = [].
Proof.
  pose proof (newPrivate_synced fs app ApplicationScope) as Hs.
  assert (Hd : synced fs (newApplication fs app)
               ∧ ignoreNextChange (newApplication fs app) = false
               ∧ scope (newApplication fs app) = ApplicationScope
               ∧ debounceTimer (newApplication fs app) = false).
  { unfold newApplication. by destruct (fileExists fs _). }
  destruct Hd as (Hsync & Hflag & Hscope & Htimer).
  split; [|split; [done |]; split; [|split]].
  - destruct Hsync as (_ & Ho & ->). rewrite Ho.
    unfold newApplication. by destruct (fileExists fs _).
  - unfold newApplication, fileExists. simpl.
    destruct (bool_decide_reflect (is_Some (files fs !! app))); simpl.
    + split; [done | set_solver].
    + split; [set_solver | done].
  - by rewrite detectChanges_synced.
  - unfold onTimeout. rewrite Hscope, appTimeout_signals.
    assert (Hid : with_debounceTimer false (newApplication fs app)
                  = newApplication fs app).
    { destruct (newApplication fs app); simpl in *. by subst. }
    rewrite Hid, detectChanges_synced by done. apply emitBoth_empty.
Qed.

(** One step of the constructor's loop over the directory. *)
Lemma seedApp_step (fs : FileSystem) (d : UniSettingsPrivate) (x : string) :
  settings (seedApp fs d x) = settings d
  ∧ cachedValues (seedApp fs d x) = cachedValues d
  ∧ ignoreNextChange (seedApp fs d x) = ignoreNextChange d
  ∧ scope (seedApp fs d x) = scope d
  ∧ configPath (seedApp fs d x) = configPath d
  ∧ debounceTimer (seedApp fs d x) = debounceTimer d
  ∧ (x ≠ configPath d → x ∉ watcher d →
     watcher (seedApp fs d x) = {[x]} ∪ watcher d
     ∧ appCachedValues (seedApp fs d x)
       = <[baseName x := readFile fs x]> (appCachedValues d))
  ∧ (x = configPath d →
     watcher (seedApp fs d x) = watcher d
     ∧ appCachedValues (seedApp fs d x) = appCachedValues d).
Proof.
  unfold seedApp.
  destruct (bool_decide_reflect (x ≠ configPath d)) as [Hx|Hx]; cbn [andb].
  - destruct (bool_decide_reflect (x ∈ watcher d)) as [Hw|Hw]; cbn [negb].
    + repeat split; done.
    + rewrite detectAppChanges_general. simpl. repeat split; done.
  - repeat split; done.
Qed.

(** The loop over files of other base names leaves the entry of [app]
    alone. *)
Lemma foldl_seedApp_other (fs : FileSystem) (l : list string)
    (d : UniSettingsPrivate) (app : string) :
  (∀ y, y ∈ l → y ≠ configPath d → baseName y ≠ app) →
  appCachedValues (foldl (seedApp fs) d l) !! app = appCachedValues d !! app.
Proof.
  revert d. induction l as [|y l IH]; intros d Hl; simpl; [done |].
  assert (Hp : configPath (seedApp fs d y) = configPath d)
    by apply seedApp_step.
  rewrite IH by (intros z Hz; rewrite Hp; apply Hl; by right).
  unfold seedApp.
  destruct (bool_decide_reflect (y ≠ configPath d)) as [Hy|Hy]; cbn [andb];
    [|done].
  destruct (negb _); [|done]. rewrite detectAppChanges_general. simpl.
  apply lookup_insert_ne, Hl; [by left | done].
Qed.

(** The whole loop, over distinct names none of which is watched yet. *)
Lemma foldl_seedApp (fs : FileSystem) (l : list string)
    (d : UniSettingsPrivate) :
  NoDup l →
  (∀ x, x ∈ l → x ≠ configPath d → x ∉ watcher d) →
  settings (foldl (seedApp fs) d l) = settings d
  ∧ cachedValues (foldl (seedApp fs) d l) = cachedValues d
  ∧ ignoreNextChange (foldl (seedApp fs) d l) = ignoreNextChange d
  ∧ scope (foldl (seedApp fs) d l) = scope d
  ∧ configPath (foldl (seedApp fs) d l) = configPath d
  ∧ debounceTimer (foldl (seedApp fs) d l) = debounceTimer d
  ∧ (∀ x, x ∈ watcher (foldl (seedApp fs) d l)
          ↔ x ∈ watcher d ∨ (x ∈ l ∧ x ≠ configPath d))
  ∧ (∀ x, x ∈ l → x ≠ configPath d →
          (∀ y, y ∈ l → y ≠ configPath d → baseName y = baseName x → y = x) →
          appCachedValues (foldl (seedApp fs) d l) !! baseName x
          = Some (readFile fs x)).
Proof.
  intros Hnd. revert d. induction Hnd as [|y l Hy Hnd IH]; intros d Hfresh.
  { simpl. repeat split; try done.
    - by left.
    - intros [?|[?%elem_of_nil _]]; done.
    - by intros x ?%elem_of_nil. }
  simpl.
  destruct (seedApp_step fs d y) as (Es & Ec & Ei & Esc & Ep & Et & Hnew & Hown).
  assert (Hw : ∀ x, x ∈ watcher (seedApp fs d y)
                    ↔ x ∈ watcher d ∨ (x = y ∧ x ≠ configPath d)).
  { intros x. destruct (decide (y = configPath d)) as [Heq|Hne].
    - destruct (Hown Heq) as [-> _]. split; [by left |].
      intros [?|[-> ?]]; done.
    - destruct (Hnew Hne) as [-> _]; [apply Hfresh; [by left | done] |].
      rewrite elem_of_union, elem_of_singleton.
      split; [intros [->|?]; [by right | by left] |].
      intros [?|[-> _]]; [by right | by left]. }
  destruct (IH (seedApp fs d y)) as (-> & -> & -> & -> & -> & -> & IHw & IHc).
  { intros x Hx Hne. rewrite Hw, Ep in *.
    intros [?|[-> _]]; [|done]. apply (Hfresh x); [by right | done | done]. }
  rewrite Ep in *. repeat split; try done.
  - rewrite IHw, Hw. intros [[?|[-> ?]]|[? ?]].
    + by left.
    + right. split; [by left | done].
    + right. split; [by right | done].
  - rewrite IHw, Hw. intros [?|[[->|?]%elem_of_cons ?]].
    + by left; left.
    + left; by right.
    + by right.
  - intros x [->|Hx]%elem_of_cons Hne Huniq.
    + destruct (Hnew Hne) as [_ Hcache]; [apply Hfresh; [by left | done] |].
      rewrite foldl_seedApp_other, Hcache, lookup_insert_eq; [done |].
      rewrite Ep. intros z Hz Hzp Heq. apply Hy.
      rewrite <- (Huniq z); [done | by right | done | done].
    + apply IHc; [done | done |].
      intros z Hz Hzp Heq. apply Huniq; [by right | done | done].
Qed.

Lemma synced_with_debounceTimer (fs : FileSystem) (d : UniSettingsPrivate)
    (t : bool) :
  synced fs d → synced fs (with_debounceTimer t d).
Proof. done. Qed.

(** The loop over files whose entries already mirror them emits nothing
    and leaves the table as it was. *)
Lemma foldl_checkApp_quiet (fs : FileSystem) (l : list string)
    (st : UniSettingsPrivate * list Signal) :
  (∀ x, x ∈ l → baseName x ≠ "system" →
        appCachedValues st.1 !! baseName x = Some (readFile fs x)) →
  (foldl (checkApp fs) st l).2 = st.2.
Proof.
  revert st. induction l as [|x l IH]; intros st Hl; simpl; [done |].
  destruct (decide (baseName x = "system")) as [Hsys|Hsys].
  { rewrite checkApp_system by done. apply IH. intros y Hy. apply Hl. by right. }
  destruct (checkApp_sibling fs st x Hsys) as (Hs & Hc & _).
  assert (Hx : appCachedValues st.1 !! baseName x = Some (readFile fs x))
    by (apply Hl; [by left | done]).
  rewrite IH.
  - rewrite Hs, Hx. simpl. rewrite delta_same, emitExternal_empty.
    apply app_nil_r.
  - intros y Hy Hne. rewrite Hc, insert_id by done. apply Hl; [by right | done].
Qed.

(** A System-scope timer pass over a directory that holds nothing new
    emits nothing. *)
Lemma systemTimeout_quiet (fs : FileSystem) (d : UniSettingsPrivate) :
  synced fs d → ignoreNextChange d = false →
  (∀ x, baseName x ≠ "system" → is_Some (files fs !! x) →
        appCachedValues d !! baseName x = Some (readFile fs x)) →
  out_signals (systemTimeout fs d) = [].
Proof.
  intros Hsync Hclear Hsib. unfold systemTimeout.
  rewrite detectChanges_synced; [|by apply synced_with_debounceTimer | done].
  rewrite emitExternal_empty.
  pose proof (foldl_checkApp_quiet fs (entryInfoList fs)
                (with_debounceTimer false d, [])) as Hquiet.
  destruct (foldl (checkApp fs) (with_debounceTimer false d, [])
              (entryInfoList fs)) as [d2 sigs2]. simpl in *.
  apply Hquiet. intros x Hx Hne. apply Hsib; [done |].
  by apply entryInfoList_elem.
Qed.

Lemma newPrivate_fields (fs : FileSystem) (app : string) (s : Scope) :
  let path := match s with SystemScope => "system" | ApplicationScope => app end in
  settings (newPrivate fs app s) = QS.open fs path
  ∧ cachedValues (newPrivate fs app s) = readFile fs path
  ∧ ignoreNextChange (newPrivate fs app s) = false
  ∧ scope (newPrivate fs app s) = s
  ∧ configPath (newPrivate fs app s) = path
  ∧ debounceTimer (newPrivate fs app s) = false
  ∧ watcher (newPrivate fs app s) = ∅
  ∧ appCachedValues (newPrivate fs app s) = ∅.
Proof.
  intros path. split; [done |]. split; [|done].
  unfold newPrivate. rewrite cacheAllValues_spec. apply view_open.
Qed.

(** The instance on which the constructor's loop starts. *)
Lemma newSystem_initial (fs : FileSystem) :
  ∃ d0, newSystem fs = foldl (seedApp fs) d0 (entryInfoList fs)
        ∧ settings d0 = QS.open fs "system"
        ∧ cachedValues d0 = readFile fs "system"
        ∧ ignoreNextChange d0 = false ∧ scope d0 = SystemScope
        ∧ configPath d0 = "system" ∧ debounceTimer d0 = false
        ∧ ∀ x, x ∈ watcher d0 ↔ x = "system" ∧ is_Some (files fs !! "system").
Proof.
  unfold newSystem. eexists. split; [reflexivity |].
  destruct (newPrivate_fields fs "system" SystemScope)
    as (Hs & Hc & Hi & Hsc & Hp & Ht & Hw & _).
  revert Hs Hc Hi Hsc Hp Ht Hw.
  generalize (newPrivate fs "system" SystemScope). intros np Hs Hc Hi Hsc Hp Ht Hw.
  rewrite Hp. unfold fileExists.
  destruct (bool_decide_reflect (is_Some (files fs !! "system"))); simpl;
    repeat (split; [done |]); intros x; rewrite ?Hw.
  - rewrite elem_of_union, elem_of_singleton.
    split; [intros [->|?%elem_of_empty]; done | intros [-> _]; by left].
  - split; [by intros ?%elem_of_empty | by intros [_ ?]].
Qed.

(** X5.  Over a directory where no two files have the same base name, the
    System-scope instance is constructed in step with the whole directory:
    its cache holds the contents of the system file, the sibling cache
    table holds, under the base name of every other file, the contents of
    that file, exactly the files of the directory are watched, the flag is
    clear, and a timer expiry over the same directory emits no signal. *)
Theorem newSystem_quiet (fs : FileSystem) :
  distinctBaseNames fs →
  cachedValues (newSystem fs) = readFile fs "system"
  ∧ ignoreNextChange (newSystem fs) = false
  ∧ (∀ name, name ∈ watcher (newSystem fs) ↔ is_Some (files fs !! name))
  ∧ (∀ path, path ≠ "system" → is_Some (files fs !! path) →
             appCachedValues (newSystem fs) !! baseName path
             = Some (readFile fs path))
  ∧ out_signals (onTimeout fs (newSystem fs)) = [].
Proof.
  intros Hdistinct.
  destruct (newSystem_initial fs) as (d0 & Hnew & H0).
  destruct H0 as (Hset & Hcache & Hflag & Hscope & Hpath & Htimer & Hwatch).
  destruct (foldl_seedApp fs (entryInfoList fs) d0 (NoDup_fst_map_to_list _))
    as (Es & Ec & Ei & Esc & Ep & Et & Ew & Ea).
  { intros x _ Hne [-> _]%Hwatch. by rewrite Hpath in Hne. }
  rewrite <- Hnew in *. rewrite Hpath in *.
  assert (Hsib : ∀ path, path ≠ "system" → is_Some (files fs !! path) →
                         appCachedValues (newSystem fs) !! baseName path
                         = Some (readFile fs path)).
  { intros path Hne Hfile. apply Ea; [by apply entryInfoList_elem | done |].
    intros y Hy _ Heq. apply Hdistinct; [by apply entryInfoList_elem | done..]. }
  split; [by rewrite Ec |]. split; [by rewrite Ei |]. split; [|split; [done |]].
  - intros name. rewrite Ew, Hwatch, entryInfoList_elem.
    split; [intros [[-> ?]|[? _]]; done |].
    intros Hfile. destruct (decide (name = "system")) as [->|Hne];
      [by left | by right].
  - unfold onTimeout. rewrite Esc, Hscope.
    apply systemTimeout_quiet; [|by rewrite Ei |].
    + unfold synced. rewrite Es, Ec, Hset, Hcache. simpl. done.
    + intros x Hbase Hfile. apply Hsib; [|done]. by intros ->.
Qed.

(** X6.  An application none of whose files is left in the directory is
    not looked at: when no file of the directory has the base name [app],
    a timer pass of the System-scope instance emits nothing for that
    application, whatever the sibling cache table holds for it, and leaves
    its entry of the table as it was. *)
Theorem deleted_sibling_unreported (fs : FileSystem) (d : UniSettingsPrivate)
    (app k : string) (v : QVariant) :
  fileName (settings d) = "system" →
  app ≠ "system" →
  (∀ path, is_Some (files fs !! path) → baseName path ≠ app) →
  (externalValueChanged app k v ∉ out_signals (systemTimeout fs d))
  ∧ appCachedValues (out_d (systemTimeout fs d)) !! app
    = appCachedValues d !! app.
Proof.
  intros Hname Happ Hgone. unfold systemTimeout.
  pose proof (detectChanges_files fs (with_debounceTimer false d)) as Hnew.
  assert (Hcache : appCachedValues
                     (detectChanges fs (with_debounceTimer false d)).1.2
                   = appCachedValues d).
  { unfold detectChanges. destruct (ignoreNextChange _); [done |].
    by destruct (QS.sync fs _). }
  assert (Hown : ∀ changes,
            externalValueChanged app k v ∉ emitExternal "system" changes).
  { intros changes (k' & v' & [= Heq _ _] & _)%emitExternal_elem. done. }
  destruct (detectChanges fs (with_debounceTimer false d))
    as [[fs1 d1] changes]. simpl in Hcache, Hnew.
  destruct (foldl_checkApp_other fs1 (entryInfoList fs1)
              (d1, emitExternal "system" changes) app k v) as [Hc Hs].
  { intros y [Hy|Hy]%entryInfoList_elem%Hnew; [|by apply Hgone].
    rewrite Hy. simpl. rewrite Hname. done. }
  simpl in Hc, Hs.
  destruct (foldl (checkApp fs1) (d1, emitExternal "system" changes)
              (entryInfoList fs1)) as [d2 sigs2].
  simpl in *. destruct (rewatch_frame fs1 d2) as [-> _].
  split; [|by rewrite Hc, Hcache]. rewrite Hs. apply Hown.
Qed.

Lemma deleted_sibling_unreported_witness :
  (externalValueChanged "editor" "theme" Invalid
     ∉ out_signals
         (systemTimeout emptyDir (out_d (onTimeout editorDir system0))))
  ∧ appCachedValues
      (out_d (systemTimeout emptyDir (out_d (onTimeout editorDir system0))))
      !! "editor"
    = appCachedValues (out_d (onTimeout editorDir system0)) !! "editor".
Proof.
  apply deleted_sibling_unreported; [reflexivity | discriminate |].
  intros path Hfile. unfold emptyDir in Hfile. simpl in Hfile.
  rewrite lookup_empty in Hfile. by destruct Hfile.
Defined.

(** ** Local writes and the snapshot cache *)

Lemma view_lookup (q : QSettings) (k : string) :
  QS.view q !! k
  = match addedKeys q !! k with
    | Some v => Some v
    | None => if decide (k ∈ removedKeys q) then None else originalKeys q !! k
    end.
Proof.
  unfold QS.view. rewrite lookup_union.
  destruct (addedKeys q !! k) as [v|] eqn:Ha.
  - by destruct (filter _ (originalKeys q) !! k).
  - rewrite (left_id_L None (∪)).
    destruct (decide (k ∈ removedKeys q)) as [Hr|Hr].
    + apply map_lookup_filter_None. right. intros x _. simpl. by intros ?.
    + destruct (originalKeys q !! k) as [x|] eqn:Ho.
      * by apply map_lookup_filter_Some.
      * apply map_lookup_filter_None. by left.
Qed.

(** After a [sync] that did not fail, the store object is in step with its
    file and answers with the pending changes merged over the reloaded
    file. *)
Lemma sync_in_step_after (fs : FileSystem) (q : QSettings) :
  QS.dirty q = false ∨ writable fs = true →
  QS.dirty (QS.sync fs q).2 = false
  ∧ originalKeys (QS.sync fs q).2
    = readFile (QS.sync fs q).1 (fileName (QS.sync fs q).2)
  ∧ originalKeys (QS.sync fs q).2 = QS.view (reloaded fs q).
Proof.
  intros Hok.
  destruct (sync_cases fs q) as [[Hd ->]|[(_ & _ & ->)|(Hd & Hw & _)]]; simpl.
  - split; [done |]. split; [done |]. symmetry. by apply view_not_dirty.
  - split; [done |]. by rewrite readFile_writeFile.
  - destruct Hok; congruence.
Qed.

(** What the three mutating methods leave when the instance was in step
    with its file and the write does not fail: an instance in step with the
    file again if and only if the new cache is the new content of the
    store. *)
Lemma synced_after_sync (fs : FileSystem) (d : UniSettingsPrivate)
    (q1 : QSettings) (cache : gmap string QVariant) (flag : bool) :
  QS.dirty q1 = false ∨ writable fs = true →
  cache = QS.view (reloaded fs q1) →
  synced (QS.sync fs q1).1
    (with_cachedValues cache
       (with_settings (QS.sync fs q1).2 (with_ignoreNextChange flag d))).
Proof.
  intros Hok Hcache. destruct (sync_in_step_after fs q1 Hok) as (Hd & Ho & Hv).
  unfold synced. simpl. split; [done |]. split; [done |]. by rewrite Hv.
Qed.

Lemma view_reloaded_setValue (fs : FileSystem) (q : QSettings) (k : string)
    (v : QVariant) :
  QS.dirty q = false →
  QS.view (reloaded fs (QS.setValue q k v))
  = <[k := v]> (readFile fs (fileName q)).
Proof.
  intros [Ha Hr]%dirty_false. apply map_eq; intros i.
  rewrite view_lookup. simpl. rewrite Ha, Hr.
  destruct (decide (i = k)) as [->|Hne].
  - by rewrite !lookup_insert_eq.
  - rewrite !lookup_insert_ne, lookup_empty by done.
    rewrite decide_False; [done |].
    by intros [?%elem_of_empty _]%elem_of_difference.
Qed.

Lemma view_reloaded_clear (fs : FileSystem) (q : QSettings) :
  originalKeys q = readFile fs (fileName q) →
  QS.view (reloaded fs (QS.clear q)) = ∅.
Proof.
  intros Ho. apply map_eq; intros i. rewrite view_lookup. simpl.
  rewrite !lookup_empty, <- Ho.
  destruct (decide (i ∈ dom (originalKeys q))) as [|Hi]; [done |].
  by apply not_elem_of_dom in Hi.
Qed.

Lemma view_reloaded_remove (fs : FileSystem) (q : QSettings) (k i : string) :
  QS.dirty q = false →
  originalKeys q = readFile fs (fileName q) →
  QS.view (reloaded fs (QS.remove q k)) !! i
  = if QS.under k i then None else originalKeys q !! i.
Proof.
  intros [Ha Hr]%dirty_false Ho. rewrite view_lookup. simpl.
  rewrite Ha, Hr, map_filter_empty, lookup_empty, <- Ho.
  rewrite (left_id_L ∅ (∪)).
  destruct (decide (i ∈ filter (λ k', QS.under k k' = true)
                          (dom (originalKeys q)))) as [Hin|Hout].
  - apply elem_of_filter in Hin as [-> _]. done.
  - destruct (QS.under k i) eqn:Hu; [|done].
    destruct (originalKeys q !! i) as [x|] eqn:Hx; [|done].
    exfalso. apply Hout, elem_of_filter. split; [done |].
    apply elem_of_dom. by eexists.
Qed.

Lemma newApplication_synced (fs : FileSystem) (app : string) :
  synced fs (newApplication fs app).
Proof.
  pose proof (newPrivate_synced fs app ApplicationScope) as Hs.
  unfold newApplication. by destruct (fileExists fs _).
Qed.

Lemma synced_with_ignoreNextChange (fs : FileSystem) (d : UniSettingsPrivate)
    (b : bool) :
  synced fs d → synced fs (with_ignoreNextChange b d).
Proof. done. Qed.

(** The pass that the flag suppresses and the pass after it, on an
    instance in step with its file. *)
Lemma two_passes_synced (fs : FileSystem) (d : UniSettingsPrivate) :
  synced fs d → ignoreNextChange d = true →
  (detectChanges fs d).2 = ∅
  ∧ (detectChanges fs (detectChanges fs d).1.2).2 = ∅.
Proof.
  intros Hs Harmed. rewrite detectChanges_armed by done. simpl.
  split; [done |]. by rewrite detectChanges_synced.
Qed.

(** X7.  A local write is never reported as an external change.  On an
    instance in step with its file and a directory that takes the write, a
    [setValue] that changes the value leaves the instance in step with the
    file (the file, the store and the cache hold the old contents with the
    key set to the new value, other files are untouched); the detection
    pass that the flag suppresses and the one after it, over the
    directory as the write left it, both return the empty delta. *)
Theorem setValue_keeps_in_step (fs : FileSystem) (d : UniSettingsPrivate)
    (key : string) (v : QVariant) :
  synced fs d → writable fs = true →
  QS.value (settings d) (fullKey d key) Invalid ≠ v →
  synced (out_fs (setValue fs d key v)) (out_d (setValue fs d key v))
  ∧ readFile (out_fs (setValue fs d key v)) (fileName (settings d))
    = <[fullKey d key := v]> (readFile fs (fileName (settings d)))
  ∧ cachedValues (out_d (setValue fs d key v))
    = <[fullKey d key := v]> (readFile fs (fileName (settings d)))
  ∧ (∀ name, name ≠ fileName (settings d) →
             files (out_fs (setValue fs d key v)) !! name = files fs !! name)
  ∧ (detectChanges (out_fs (setValue fs d key v))
       (out_d (setValue fs d key v))).2 = ∅
  ∧ (detectChanges (out_fs (setValue fs d key v))
       (detectChanges (out_fs (setValue fs d key v))
          (out_d (setValue fs d key v))).1.2).2 = ∅.
Proof.
  intros (Hd & Ho & Hc) Hw Hdiff. rewrite setValue_changed by done.
  cbn [out_fs out_d].
  set (q1 := QS.setValue (settings d) (fullKey d key) v).
  assert (Hview : QS.view (reloaded fs q1)
                  = <[fullKey d key := v]> (readFile fs (fileName (settings d))))
    by by apply view_reloaded_setValue.
  assert (Hcache : <[fullKey d key := v]> (cachedValues d)
                   = QS.view (reloaded fs q1))
    by by rewrite Hview, Hc, Ho.
  pose proof (synced_after_sync fs d q1 _ true (or_intror Hw) Hcache) as Hs.
  destruct (sync_in_step_after fs q1 (or_intror Hw)) as (_ & Hfile & Hv).
  rewrite sync_fileName in Hfile.
  change (fileName q1) with (fileName (settings d)) in Hfile.
  split; [done |]. split; [by rewrite <- Hfile, Hv |].
  split; [simpl; by rewrite Hcache |].
  split; [intros name Hne; by apply sync_other_file |].
  by apply two_passes_synced.
Qed.

Lemma setValue_keeps_in_step_witness :
  readFile (out_fs (setValue emptyDir editor0 "theme" dark)) "editor"
  = {[ "theme" := dark ]}
  ∧ (detectChanges (out_fs (setValue emptyDir editor0 "theme" dark))
       (detectChanges (out_fs (setValue emptyDir editor0 "theme" dark))
          (out_d (setValue emptyDir editor0 "theme" dark))).1.2).2 = ∅.
Proof.
  destruct (setValue_keeps_in_step emptyDir editor0 "theme" dark
              (newApplication_synced emptyDir "editor") eq_refl)
    as (_ & Hfile & _ & _ & _ & Hpass).
  - vm_compute. discriminate.
  - split; [exact Hfile | exact Hpass].
Defined.

(** X8.  [clear] on an instance in step with its file empties the store
    and the cache, arms the flag and emits no signal at all; when the
    directory takes the write the file is empty too and the instance is in
    step with it. *)
Theorem clear_empties (fs : FileSystem) (d : UniSettingsPrivate) :
  synced fs d →
  out_signals (clear fs d) = []
  ∧ allKeys (out_d (clear fs d)) = []
  ∧ cachedValues (out_d (clear fs d)) = ∅
  ∧ (writable fs = true →
     synced (out_fs (clear fs d)) (out_d (clear fs d))
     ∧ readFile (out_fs (clear fs d)) (fileName (settings d)) = ∅).
Proof.
  intros (Hd & Ho & Hc).
  assert (Hview : QS.view (reloaded fs (QS.clear (settings d))) = ∅)
    by by apply view_reloaded_clear.
  assert (Hform : clear fs d
    = mkOutcome (QS.sync fs (QS.clear (settings d))).1
        (with_cachedValues ∅
           (with_settings (QS.sync fs (QS.clear (settings d))).2
              (with_ignoreNextChange true d))) []).
  { unfold clear. simpl. by destruct (QS.sync fs (QS.clear (settings d))). }
  rewrite Hform. simpl. split; [done |]. split; [|split; [done |]].
  - unfold allKeys, QS.allKeys. simpl.
    by rewrite sync_view, Hview, map_to_list_empty.
  - intros Hw.
    split; [by apply synced_after_sync; [right |] |].
    destruct (sync_in_step_after fs (QS.clear (settings d)) (or_intror Hw))
      as (_ & Hfile & Hv).
    rewrite sync_fileName in Hfile.
    change (fileName (QS.clear (settings d))) with (fileName (settings d))
      in Hfile.
    by rewrite <- Hfile, Hv.
Qed.

Lemma clear_empties_witness :
  allKeys (out_d (clear editorDir (newApplication editorDir "editor"))) = []
  ∧ out_signals (clear editorDir (newApplication editorDir "editor")) = [].
Proof.
  destruct (clear_empties editorDir (newApplication editorDir "editor")
              (newApplication_synced editorDir "editor"))
    as (Hsig & Hkeys & _).
  exact (conj Hkeys Hsig).
Defined.

Lemma remove_form (fs : FileSystem) (d : UniSettingsPrivate) (key : string) :
  remove fs d key
  = mkOutcome (QS.sync fs (QS.remove (settings d) (fullKey d key))).1
      (with_cachedValues (delete (fullKey d key) (cachedValues d))
         (with_settings (QS.sync fs (QS.remove (settings d) (fullKey d key))).2
            (with_ignoreNextChange true d)))
      [valueChanged (fullKey d key) Invalid].
Proof.
  unfold remove. simpl.
  by destruct (QS.sync fs (QS.remove (settings d) (fullKey d key))).
Qed.

Lemma under_refl (k : string) : QS.under k k = true.
Proof.
  unfold QS.under. rewrite (bool_decide_true (k = k)) by done.
  by destruct (QStr.isEmpty k).
Qed.

(** X9.  Deletion.  [remove(key)] on an instance in step with its file
    emits [valueChanged] with the Absent marker, whether or not the key was
    there; afterwards [contains(key)] is false, [value(key, default)] is the
    default and the cache has no entry for the key.  When the directory
    takes the write and the store holds no sub-setting of the key, the
    instance is in step with its file again. *)
Theorem remove_deletes (fs : FileSystem) (d : UniSettingsPrivate)
    (key : string) (defaultValue : QVariant) :
  synced fs d →
  out_signals (remove fs d key) = [valueChanged (fullKey d key) Invalid]
  ∧ contains (out_d (remove fs d key)) key = false
  ∧ value (out_d (remove fs d key)) key defaultValue = defaultValue
  ∧ cachedValues (out_d (remove fs d key)) !! fullKey d key = None
  ∧ (writable fs = true →
     (∀ k, is_Some (originalKeys (settings d) !! k) →
           QS.under (fullKey d key) k = true → k = fullKey d key) →
     synced (out_fs (remove fs d key)) (out_d (remove fs d key))).
Proof.
  intros (Hd & Ho & Hc). rewrite remove_form. cbn [out_fs out_d out_signals].
  assert (Hgone : QS.view (QS.sync fs (QS.remove (settings d) (fullKey d key))).2
                    !! fullKey d key = None).
  { rewrite sync_view.
    change (fileName (QS.remove (settings d) (fullKey d key)))
      with (fileName (settings d)).
    by rewrite view_reloaded_remove, under_refl. }
  split; [done |]. split; [|split; [|split]].
  - unfold contains. simpl. change (fullKey _ key) with (fullKey d key).
    unfold QS.contains. rewrite Hgone. apply bool_decide_false. by intros [? ?].
  - unfold value, QS.value. simpl. change (fullKey _ key) with (fullKey d key).
    by rewrite Hgone.
  - simpl. apply lookup_delete_eq.
  - intros Hw Hsub. apply synced_after_sync; [by right |].
    apply map_eq; intros i.
    change (fileName (QS.remove (settings d) (fullKey d key)))
      with (fileName (settings d)).
    rewrite view_reloaded_remove by done. rewrite Hc.
    destruct (decide (i = fullKey d key)) as [->|Hne].
    + by rewrite lookup_delete_eq, under_refl.
    + rewrite lookup_delete_ne by done.
      destruct (QS.under (fullKey d key) i) eqn:Hu; [|done].
      destruct (originalKeys (settings d) !! i) as [x|] eqn:Hx; [|done].
      destruct Hne. apply Hsub; [by eexists | done].
Qed.

Lemma remove_deletes_witness :
  contains (out_d (remove editorDir (newApplication editorDir "editor") "theme"))
    "theme" = false
  ∧ value (out_d (remove editorDir (newApplication editorDir "editor") "theme"))
      "theme" light = light.
Proof.
  destruct (remove_deletes editorDir (newApplication editorDir "editor")
              "theme" light (newApplication_synced editorDir "editor"))
    as (_ & Hc & Hv & _).
  exact (conj Hc Hv).
Defined.

(** X10.  [remove(key)] drops the sub-settings of the key from the store
    and the file but only the key itself from the cache: a sub-setting
    stays in the cache, and the detection pass after the suppressed one
    reports it with the Absent marker although no other process touched the
    file. *)
Theorem remove_leaves_subkeys_cached (fs : FileSystem)
    (d : UniSettingsPrivate) (key k : string) (x : QVariant) :
  synced fs d → writable fs = true →
  k ≠ fullKey d key →
  QS.under (fullKey d key) k = true →
  originalKeys (settings d) !! k = Some x →
  QS.view (settings (out_d (remove fs d key))) !! k = None
  ∧ readFile (out_fs (remove fs d key)) (fileName (settings d)) !! k = None
  ∧ cachedValues (out_d (remove fs d key)) !! k = Some x
  ∧ (detectChanges (out_fs (remove fs d key))
       (detectChanges (out_fs (remove fs d key))
          (out_d (remove fs d key))).1.2).2 !! k = Some Invalid.
Proof.
  intros (Hd & Ho & Hc) Hw Hne Hu Hx. rewrite remove_form.
  cbn [out_fs out_d].
  set (q1 := QS.remove (settings d) (fullKey d key)).
  destruct (sync_in_step_after fs q1 (or_intror Hw)) as (Hclean & Hfile & Hv).
  assert (Hgone : QS.view (reloaded fs q1) !! k = None).
  { unfold q1.
    change (fileName (QS.remove (settings d) (fullKey d key)))
      with (fileName (settings d)).
    by rewrite view_reloaded_remove, Hu. }
  assert (Hcached : delete (fullKey d key) (cachedValues d) !! k = Some x)
    by by rewrite lookup_delete_ne, Hc.
  split; [simpl; by rewrite sync_view |].
  split; [|split; [done |]].
  - rewrite sync_fileName in Hfile.
    change (fileName q1) with (fileName (settings d)) in Hfile.
    by rewrite <- Hfile, Hv.
  - rewrite (detectChanges_armed _ (with_cachedValues _ _)) by done.
    cbn [fst snd].
    rewrite detectChanges_clear by done. cbn [snd settings with_settings
      with_cachedValues with_ignoreNextChange cachedValues].
    rewrite sync_in_step by done. cbn [snd].
    rewrite delta_lookup, view_not_dirty, Hv, Hgone, Hcached by done. done.
Qed.

Lemma remove_leaves_subkeys_cached_witness :
  cachedValues (out_d (remove groupedDir (newApplication groupedDir "editor")
                         "ui")) !! "ui/theme" = Some dark
  ∧ QS.view (settings (out_d (remove groupedDir
                                (newApplication groupedDir "editor") "ui")))
      !! "ui/theme" = None.
Proof.
  destruct (remove_leaves_subkeys_cached groupedDir
              (newApplication groupedDir "editor") "ui" "ui/theme" dark
              (newApplication_synced groupedDir "editor") eq_refl)
    as (Hview & _ & Hcache & _).
  - discriminate.
  - reflexivity.
  - vm_compute. reflexivity.
  - exact (conj Hcache Hview).
Defined.

(** ** Reading back what was written *)

(** After [setValue] with a valid value the store holds it under the
    effective key, and the group is as before. *)
Lemma setValue_lookup (fs : FileSystem) (d : UniSettingsPrivate)
    (key : string) (v : QVariant) :
  v ≠ Invalid →
  QS.view (settings (out_d (setValue fs d key v))) !! fullKey d key = Some v
  ∧ currentGroup (out_d (setValue fs d key v)) = currentGroup d.
Proof.
  intros Hvalid.
  destruct (decide (QS.value (settings d) (fullKey d key) Invalid = v))
    as [Hsame|Hdiff].
  - rewrite setValue_same by done. simpl. split; [|done].
    unfold QS.value in Hsame.
    destruct (QS.view (settings d) !! fullKey d key); simpl in *; congruence.
  - rewrite setValue_changed by done. simpl. split; [|done].
    rewrite sync_view. apply view_added. simpl. apply lookup_insert_eq.
Qed.

Lemma group_endGroup_ext (d d' : UniSettingsPrivate) :
  currentGroup d = currentGroup d' → group (endGroup d) = group (endGroup d').
Proof.
  intros Hg. unfold group, endGroup. rewrite Hg.
  by destruct (0 <=? QStr.lastIndexOf slash (currentGroup d'))%Z.
Qed.

Lemma settings_endGroup (d : UniSettingsPrivate) :
  settings (endGroup d) = settings d.
Proof.
  unfold endGroup. by destruct (0 <=? QStr.lastIndexOf slash (currentGroup d))%Z.
Qed.

(** X11.  Group scoping.  A valid value written as [key] between
    [beginGroup(prefix)] and [endGroup()], for a non-empty prefix without
    "/", is read inside the group as [key] and, after [endGroup()], with
    the group as it was before, as [prefix/key]. *)
Theorem scoped_write (fs : FileSystem) (d : UniSettingsPrivate)
    (prefix key : string) (v defaultValue : QVariant) :
  QStr.contains slash prefix = false → prefix ≠ "" → v ≠ Invalid →
  value (out_d (setValue fs (beginGroup d prefix) key v)) key defaultValue = v
  ∧ group (endGroup (out_d (setValue fs (beginGroup d prefix) key v)))
    = group d
  ∧ value (endGroup (out_d (setValue fs (beginGroup d prefix) key v)))
      (prefix ++ "/" ++ key) defaultValue = v.
Proof.
  intros Hslash Hprefix Hvalid.
  destruct (setValue_lookup fs (beginGroup d prefix) key v Hvalid)
    as [Hview Hgroup].
  assert (Hend : group (endGroup (out_d (setValue fs (beginGroup d prefix) key v)))
                 = group d).
  { rewrite (group_endGroup_ext _ (beginGroup d prefix)) by done.
    by rewrite endGroup_after_beginGroup. }
  split; [|split; [done |]].
  - unfold value, QS.value, fullKey. rewrite Hgroup.
    fold (fullKey (beginGroup d prefix) key). by rewrite Hview.
  - unfold value, QS.value. rewrite settings_endGroup.
    assert (Hk : fullKey (endGroup (out_d (setValue fs (beginGroup d prefix)
                                             key v))) (prefix ++ "/" ++ key)
                 = fullKey (beginGroup d prefix) key).
    { rewrite fullKey_under_prefix by by right.
      unfold fullKey. unfold group in Hend. by rewrite Hend. }
    by rewrite Hk, Hview.
Qed.

Lemma scoped_write_witness :
  value (endGroup (out_d (setValue emptyDir (beginGroup editor0 "ui")
                            "theme" dark))) ("ui" ++ "/" ++ "theme") light
  = dark.
Proof.
  apply (scoped_write emptyDir editor0 "ui" "theme" dark light);
    [reflexivity | discriminate | discriminate].
Defined.

Lemma appValue_file (fs : FileSystem) (app key : string)
    (defaultValue : QVariant) :
  appValue fs app key defaultValue
  = default defaultValue (readFile fs app !! key).
Proof. unfold appValue, QS.value. by rewrite view_open. Qed.

(** X12.  Cross-scope reads see what reached the disk.  After a
    [setValue] that changes the value to a valid one: when the directory
    takes the write, [appValue] with the name of the instance's file and
    the effective key returns the new value, and so does [systemValue] of
    any Application-scope instance when the file is the system file; when
    the write fails, [appValue] returns for every key what it returned
    before.  [appValue] for a name without file returns the default. *)
Theorem cross_scope_read (fs : FileSystem) (d d' : UniSettingsPrivate)
    (key k : string) (v defaultValue : QVariant) :
  v ≠ Invalid →
  QS.value (settings d) (fullKey d key) Invalid ≠ v →
  (writable fs = true →
   appValue (out_fs (setValue fs d key v)) (fileName (settings d))
     (fullKey d key) defaultValue = v
   ∧ (fileName (settings d) = "system" → scope d' = ApplicationScope →
      systemValue (out_fs (setValue fs d key v)) d' (fullKey d key)
        defaultValue = v))
  ∧ (writable fs = false →
     appValue (out_fs (setValue fs d key v)) (fileName (settings d)) k
       defaultValue
     = appValue fs (fileName (settings d)) k defaultValue)
  ∧ (files fs !! k = None → appValue fs k key defaultValue = defaultValue).
Proof.
  intros Hvalid Hdiff. rewrite setValue_changed by done. cbn [out_fs].
  set (q1 := QS.setValue (settings d) (fullKey d key) v).
  split; [|split].
  - intros Hw.
    destruct (sync_in_step_after fs q1 (or_intror Hw)) as (_ & Hfile & Hv).
    rewrite sync_fileName in Hfile.
    change (fileName q1) with (fileName (settings d)) in Hfile.
    assert (Hread : readFile (QS.sync fs q1).1 (fileName (settings d))
                      !! fullKey d key = Some v).
    { rewrite <- Hfile, Hv. apply view_added. simpl. apply lookup_insert_eq. }
    split; [by rewrite appValue_file, Hread |].
    intros Hname Hscope. unfold systemValue. rewrite Hscope. cbn zeta.
    unfold QS.value. by rewrite view_open, <- Hname, Hread.
  - intros Hw. rewrite !appValue_file.
    by rewrite sync_unwritable by (done || apply dirty_setValue).
  - intros Hnone. rewrite appValue_file. unfold readFile. by rewrite Hnone.
Qed.

Lemma cross_scope_read_witness :
  appValue (out_fs (setValue emptyDir editor0 "theme" dark)) "editor" "theme"
    light = dark.
Proof.
  destruct (cross_scope_read emptyDir editor0 editor0 "theme" "theme" dark light)
    as (Hok & _ & _).
  - discriminate.
  - vm_compute. discriminate.
  - exact (proj1 (Hok eq_refl)).
Defined.

(** ** The debounce timer *)

Lemma onFileChanged_armed (fs : FileSystem) (d : UniSettingsPrivate) :
  debounceTimer (out_d (onFileChanged fs d)) = true
  ∧ (debounceTimer d = true → out_d (onFileChanged fs d) = d).
Proof.
  unfold onFileChanged. simpl. destruct (debounceTimer d) eqn:Ht; simpl; done.
Qed.

Lemma fileChangedBurst_pending (l : list FileSystem) (d : UniSettingsPrivate) :
  debounceTimer d = true → fileChangedBurst l d = d.
Proof.
  revert d. induction l as [|fs l IH]; intros d Ht; [done |].
  change (fileChangedBurst (fs :: l) d)
    with (fileChangedBurst l (out_d (onFileChanged fs d))).
  destruct (onFileChanged_armed fs d) as [_ Hid]. rewrite Hid by done.
  by apply IH.
Qed.

Lemma detectChanges_keeps (fs : FileSystem) (d : UniSettingsPrivate) :
  debounceTimer (detectChanges fs d).1.2 = debounceTimer d
  ∧ configPath (detectChanges fs d).1.2 = configPath d
  ∧ watcher (detectChanges fs d).1.2 = watcher d
  ∧ appName (detectChanges fs d).1.2 = appName d.
Proof.
  unfold detectChanges. destruct (ignoreNextChange d); [done |].
  by destruct (QS.sync fs (settings d)).
Qed.

Lemma rewatch_keeps (fs : FileSystem) (d : UniSettingsPrivate) :
  debounceTimer (rewatch fs d) = debounceTimer d
  ∧ cachedValues (rewatch fs d) = cachedValues d
  ∧ (is_Some (files fs !! configPath d) → configPath d ∈ watcher (rewatch fs d)).
Proof.
  unfold rewatch, fileExists.
  destruct (bool_decide_reflect (configPath d ∈ watcher d)); simpl; [done |].
  destruct (bool_decide_reflect (is_Some (files fs !! configPath d))); simpl.
  - repeat (split; [done |]). intros _. apply elem_of_union. left.
    by apply elem_of_singleton.
  - done.
Qed.

Lemma onTimeout_idle (fs : FileSystem) (d : UniSettingsPrivate) :
  debounceTimer (out_d (onTimeout fs d)) = false.
Proof.
  unfold onTimeout, systemTimeout, appTimeout.
  destruct (detectChanges_keeps fs (with_debounceTimer false d)) as (Ht & _).
  destruct (detectChanges fs (with_debounceTimer false d))
    as [[fs1 d1] changes]. simpl in Ht.
  destruct (scope d).
  - pose proof (foldl_checkApp_keeps fs1 (entryInfoList fs1)
                  (d1, emitExternal "system" changes)) as (_ & Ht2 & _).
    destruct (foldl (checkApp fs1) (d1, emitExternal "system" changes)
                (entryInfoList fs1)) as [d2 sigs2]. simpl in *.
    destruct (rewatch_keeps fs1 d2) as (-> & _). congruence.
  - simpl. by destruct (rewatch_keeps fs1 d1) as (-> & _).
Qed.

(** X13.  Debouncing.  A burst of watcher notifications arms the timer
    once: whatever their number and whatever the directory holds at each,
    the instance after the burst is the instance after the first
    notification, with the timer pending; a notification emits no signal
    and touches no file.  When the timer has expired the timer is idle
    again, so that the next notification arms it. *)
Theorem debounce_coalesces (fs fs' : FileSystem) (l : list FileSystem)
    (d : UniSettingsPrivate) :
  fileChangedBurst (fs :: l) d = out_d (onFileChanged fs d)
  ∧ debounceTimer (fileChangedBurst (fs :: l) d) = true
  ∧ out_signals (onFileChanged fs d) = []
  ∧ out_fs (onFileChanged fs d) = fs
  ∧ debounceTimer (out_d (onTimeout fs' (fileChangedBurst (fs :: l) d)))
    = false
  ∧ debounceTimer
      (out_d (onFileChanged fs
                (out_d (onTimeout fs' (fileChangedBurst (fs :: l) d)))))
    = true.
Proof.
  destruct (onFileChanged_armed fs d) as [Harmed _].
  assert (Hburst : fileChangedBurst (fs :: l) d = out_d (onFileChanged fs d)).
  { change (fileChangedBurst (fs :: l) d)
      with (fileChangedBurst l (out_d (onFileChanged fs d))).
    by apply fileChangedBurst_pending. }
  rewrite Hburst. repeat (split; [done |]).
  split; [apply onTimeout_idle | apply onFileChanged_armed].
Qed.

(** ** More on detection passes *)

(** X14.  Sibling detection.  [detectAppChanges] returns the delta of the
    file against the application's entry of the sibling cache table (an
    empty cache when there is none) and makes the entry mirror the file; a
    second call over the same file returns the empty delta.  The entries of
    other applications, the instance's own cache and the Suppress-Next
    flag are left alone, and the flag, set or not, does not suppress the
    detection. *)
Theorem detectAppChanges_twice (fs : FileSystem) (d : UniSettingsPrivate)
    (path app other : string) :
  (detectAppChanges fs d path app).2
    = delta (readFile fs path) (default ∅ (appCachedValues d !! app))
  ∧ appCachedValues (detectAppChanges fs d path app).1 !! app
    = Some (readFile fs path)
  ∧ (detectAppChanges fs (detectAppChanges fs d path app).1 path app).2 = ∅
  ∧ (other ≠ app →
     appCachedValues (detectAppChanges fs d path app).1 !! other
     = appCachedValues d !! other)
  ∧ cachedValues (detectAppChanges fs d path app).1 = cachedValues d
  ∧ ignoreNextChange (detectAppChanges fs d path app).1 = ignoreNextChange d
  ∧ (detectAppChanges fs (with_ignoreNextChange true d) path app).2
    = (detectAppChanges fs (with_ignoreNextChange false d) path app).2.
Proof.
  rewrite !detectAppChanges_general. simpl.
  split; [done |]. split; [apply lookup_insert_eq |].
  split; [by rewrite lookup_insert_eq; simpl; apply delta_same |].
  split; [intros Hne; by apply lookup_insert_ne |]. done.
Qed.

Lemma detectAppChanges_twice_witness :
  appCachedValues (detectAppChanges editorDir system0 "editor" "editor").1
    !! "system" = appCachedValues system0 !! "system".
Proof.
  destruct (detectAppChanges_twice editorDir system0 "editor" "editor" "system")
    as (_ & _ & _ & H & _).
  apply H. discriminate.
Defined.



(** The own-file pass of a timer callback over a file edited from
    outside. *)
Lemma own_delta (fs : FileSystem) (d : UniSettingsPrivate) (k : string)
    (v : QVariant) :
  ignoreNextChange d = false →
  QS.dirty (settings d) = false →
  readFile fs (fileName (settings d)) !! k = Some v →
  cachedValues d !! k ≠ Some v →
  (detectChanges fs (with_debounceTimer false d)).2 !! k = Some v
  ∧ QS.view (settings (detectChanges fs (with_debounceTimer false d)).1.2) !! k
    = Some v
  ∧ cachedValues (detectChanges fs (with_debounceTimer false d)).1.2 !! k
    = Some v.
Proof.
  intros Hclear Hclean Hfile Hcache. rewrite detectChanges_clear by done.
  cbn [fst snd settings cachedValues with_cachedValues with_settings
       with_debounceTimer].
  assert (Hview : QS.view (QS.sync fs (settings d)).2 !! k = Some v).
  { rewrite sync_view, view_lookup. simpl.
    apply dirty_false in Hclean as [-> ->].
    rewrite lookup_empty. by rewrite decide_False by by intros ?%elem_of_empty. }
  rewrite delta_lookup, Hview. simpl. by rewrite decide_False.
Qed.

(** X16.  External-edit detection.  When the flag is clear, nothing is
    pending and the file holds for a key a value that the cache does not
    hold, the timer callback emits [externalValueChanged] for the key
    with the new value, tagged "system" by the System-scope instance and
    with the application name by an Application-scope one, which emits
    [valueChanged] as well; afterwards the store and the cache hold the new
    value. *)
Theorem external_edit_reported (fs : FileSystem) (d : UniSettingsPrivate)
    (k : string) (v defaultValue : QVariant) :
  ignoreNextChange d = false →
  QS.dirty (settings d) = false →
  readFile fs (fileName (settings d)) !! k = Some v →
  cachedValues d !! k ≠ Some v →
  externalValueChanged
    (match scope d with SystemScope => "system" | ApplicationScope => appName d end)
    k v ∈ out_signals (onTimeout fs d)
  ∧ (scope d = ApplicationScope → valueChanged k v ∈ out_signals (onTimeout fs d))
  ∧ QS.value (settings (out_d (onTimeout fs d))) k defaultValue = v
  ∧ cachedValues (out_d (onTimeout fs d)) !! k = Some v.
Proof.
  intros Hclear Hclean Hfile Hcache.
  destruct (own_delta fs d k v Hclear Hclean Hfile Hcache) as (Hd & Hv & Hc).
  unfold onTimeout. destruct (scope d) eqn:Hscope.
  - unfold systemTimeout.
    destruct (detectChanges fs (with_debounceTimer false d))
      as [[fs1 d1] changes]. simpl in Hd, Hv, Hc.
    pose proof (foldl_checkApp_keeps fs1 (entryInfoList fs1)
                  (d1, emitExternal "system" changes))
      as (Hc2 & _ & _ & _ & _ & Hs2).
    pose proof (foldl_checkApp_frame fs1 (entryInfoList fs1)
                  (d1, emitExternal "system" changes)) as (_ & Hset2).
    destruct (foldl (checkApp fs1) (d1, emitExternal "system" changes)
                (entryInfoList fs1)) as [d2 sigs2]. simpl in *.
    destruct (rewatch_scope fs1 d2) as (_ & ->).
    destruct (rewatch_keeps fs1 d2) as (_ & -> & _).
    rewrite Hset2, Hc2. unfold QS.value. rewrite Hv.
    split; [|done]. apply Hs2, emitExternal_elem. by exists k, v.
  - rewrite appTimeout_signals. unfold appTimeout.
    destruct (detectChanges fs (with_debounceTimer false d))
      as [[fs1 d1] changes]. simpl in *.
    destruct (rewatch_scope fs1 d1) as (_ & ->).
    destruct (rewatch_keeps fs1 d1) as (_ & -> & _).
    unfold QS.value. rewrite Hv.
    split; [apply emitBoth_elem; exists k, v; by split; [|right] |].
    split; [|done]. intros _. apply emitBoth_elem. exists k, v.
    by split; [|left].
Qed.

Lemma external_edit_reported_witness :
  externalValueChanged "editor" "theme" dark
    ∈ out_signals (onTimeout editorDir editor0)
  ∧ QS.value (settings (out_d (onTimeout editorDir editor0))) "theme" light
    = dark.
Proof.
  destruct (external_edit_reported editorDir editor0 "theme" dark light)
    as (Hs & _ & Hv & _);
    [reflexivity | reflexivity | by vm_compute | by vm_compute |].
  exact (conj Hs Hv).
Defined.

(** ** The watch set *)

Lemma sync_keeps_file (fs : FileSystem) (q : QSettings) (name : string) :
  is_Some (files fs !! name) → is_Some (files (QS.sync fs q).1 !! name).
Proof.
  intros Hfile.
  destruct (sync_cases fs q) as [[_ ->]|[(_ & _ & ->)|(_ & _ & ->)]]; simpl;
    [done | | done].
  destruct (decide (fileName q = name)) as [->|Hne].
  - rewrite lookup_insert_eq. by eexists.
  - by rewrite lookup_insert_ne.
Qed.

Lemma detectChanges_keeps_file (fs : FileSystem) (d : UniSettingsPrivate)
    (name : string) :
  is_Some (files fs !! name) →
  is_Some (files (detectChanges fs d).1.1 !! name).
Proof.
  intros Hfile. unfold detectChanges. destruct (ignoreNextChange d); [done |].
  pose proof (sync_keeps_file fs (settings d) name Hfile).
  by destruct (QS.sync fs (settings d)).
Qed.

(** X17.  Re-attaching watches.  A timer pass never drops a watch; when
    the instance's own file exists the file is watched after the pass,
    whether or not it was before (a file replaced by another process loses
    its watch); after a pass of the System-scope instance every file of the
    directory whose base name is not "system" is watched. *)
Theorem timer_restores_watches (fs : FileSystem) (d : UniSettingsPrivate)
    (name : string) :
  (name ∈ watcher d → name ∈ watcher (out_d (onTimeout fs d)))
  ∧ (is_Some (files fs !! configPath d) →
     configPath d ∈ watcher (out_d (onTimeout fs d)))
  ∧ (scope d = SystemScope →
     baseName name ≠ "system" → is_Some (files fs !! name) →
     name ∈ watcher (out_d (onTimeout fs d))).
Proof.
  split; [|split].
  - intros Hw. unfold onTimeout, systemTimeout, appTimeout.
    destruct (detectChanges_keeps fs (with_debounceTimer false d))
      as (_ & _ & Hw1 & _).
    destruct (detectChanges fs (with_debounceTimer false d))
      as [[fs1 d1] changes]. simpl in Hw1.
    destruct (scope d).
    + pose proof (foldl_checkApp_keeps fs1 (entryInfoList fs1)
                    (d1, emitExternal "system" changes))
        as (_ & _ & _ & _ & Hsub & _).
      destruct (foldl (checkApp fs1) (d1, emitExternal "system" changes)
                  (entryInfoList fs1)) as [d2 sigs2]. simpl in *.
      destruct (rewatch_frame fs1 d2) as [_ Hsub2].
      apply Hsub2, Hsub. by rewrite Hw1.
    + simpl. destruct (rewatch_frame fs1 d1) as [_ Hsub2].
      apply Hsub2. by rewrite Hw1.
  - intros Hfile. unfold onTimeout, systemTimeout, appTimeout.
    destruct (detectChanges_keeps fs (with_debounceTimer false d))
      as (_ & Hp1 & _).
    pose proof (detectChanges_keeps_file fs (with_debounceTimer false d)
                  (configPath d) Hfile) as Hfile1.
    destruct (detectChanges fs (with_debounceTimer false d))
      as [[fs1 d1] changes]. simpl in Hp1, Hfile1.
    destruct (scope d).
    + pose proof (foldl_checkApp_keeps fs1 (entryInfoList fs1)
                    (d1, emitExternal "system" changes))
        as (_ & _ & Hp2 & _).
      destruct (foldl (checkApp fs1) (d1, emitExternal "system" changes)
                  (entryInfoList fs1)) as [d2 sigs2]. simpl in *.
      destruct (rewatch_keeps fs1 d2) as (_ & _ & Hre).
      rewrite Hp2, Hp1 in Hre. by apply Hre.
    + simpl. destruct (rewatch_keeps fs1 d1) as (_ & _ & Hre).
      rewrite Hp1 in Hre. by apply Hre.
  - intros Hscope Hne Hfile. unfold onTimeout, systemTimeout. rewrite Hscope.
    pose proof (detectChanges_keeps_file fs (with_debounceTimer false d)
                  name Hfile) as Hfile1.
    destruct (detectChanges fs (with_debounceTimer false d))
      as [[fs1 d1] changes]. simpl in Hfile1.
    pose proof (foldl_checkApp_watched fs1 (entryInfoList fs1)
                  (d1, emitExternal "system" changes) name) as Hw.
    destruct (foldl (checkApp fs1) (d1, emitExternal "system" changes)
                (entryInfoList fs1)) as [d2 sigs2]. simpl in *.
    destruct (rewatch_frame fs1 d2) as [_ Hsub].
    apply Hsub, Hw; [by apply entryInfoList_elem | done].
Qed.

Lemma timer_restores_watches_witness :
  "editor" ∈ watcher (out_d (onTimeout editorDir editor0)).
Proof.
  destruct (timer_restores_watches editorDir editor0 "editor") as (_ & H & _).
  apply H. vm_compute. eauto.
Defined.

(** ** The SystemSettings wrapper *)

(** X18.  Through [SystemSettings], a timer pass of the System-scope
    instance gives [settingChanged(key, value)] exactly for the entries of
    the delta of the system file and [appSettingChanged(app, key, value)]
    exactly for the signals of sibling files, never with the name
    "system"; a local [setValue] that changes the value gives one
    [settingChanged] for the effective key. *)
Theorem systemSettings_forwarding (fs : FileSystem) (d : UniSettingsPrivate)
    (app key k : string) (v : QVariant) :
  (settingChanged k v ∈ forwardSignal <$> out_signals (systemTimeout fs d)
   ↔ (detectChanges fs (with_debounceTimer false d)).2 !! k = Some v)
  ∧ (appSettingChanged app k v
       ∈ forwardSignal <$> out_signals (systemTimeout fs d)
     ↔ app ≠ "system"
       ∧ externalValueChanged app k v ∈ out_signals (systemTimeout fs d))
  ∧ (QS.value (settings d) (fullKey d key) Invalid ≠ v →
     forwardSignal <$> out_signals (setValue fs d key v)
     = [settingChanged (fullKey d key) v]).
Proof.
  split; [|split].
  - rewrite list_elem_of_fmap. split.
    + intros (s & Hf & Hs).
      apply systemTimeout_signals in Hs
        as [(k' & v' & -> & Hd)|(a & k' & v' & -> & Ha)]; simpl in Hf.
      * by injection Hf as -> ->.
      * by rewrite bool_decide_false in Hf.
    + intros Hd. exists (externalValueChanged "system" k v). split; [done |].
      unfold systemTimeout.
      destruct (detectChanges fs (with_debounceTimer false d))
        as [[fs1 d1] changes]. simpl in Hd.
      pose proof (foldl_checkApp_keeps fs1 (entryInfoList fs1)
                    (d1, emitExternal "system" changes))
        as (_ & _ & _ & _ & _ & Hs2).
      destruct (foldl (checkApp fs1) (d1, emitExternal "system" changes)
                  (entryInfoList fs1)) as [d2 sigs2]. simpl in *.
      apply Hs2, emitExternal_elem. by exists k, v.
  - rewrite list_elem_of_fmap. split.
    + intros ([k' v'|a k' v'] & Hf & Hs); simpl in Hf; [done |].
      destruct (bool_decide_reflect (a = "system")); [done |].
      by injection Hf as -> -> ->.
    + intros [Hne Hs]. exists (externalValueChanged app k v).
      split; [|done]. simpl. by rewrite bool_decide_false.
  - intros Hdiff. by rewrite setValue_changed.
Qed.

Lemma systemSettings_forwarding_witness :
  forwardSignal <$> out_signals (setValue emptyDir system0 "theme" dark)
  = [settingChanged "theme" dark].
Proof.
  destruct (systemSettings_forwarding emptyDir system0 "editor" "theme" "theme"
              dark) as (_ & _ & H).
  apply H. vm_compute. discriminate.
Defined.

(** ** One signal per change *)

Lemma emitExternal_NoDup (owner : string) (changes : gmap string QVariant) :
  NoDup (emitExternal owner changes).
Proof.
  unfold emitExternal. apply NoDup_fmap_2_strong; [|apply NoDup_map_to_list].
  intros [k v] [k' v'] _ _ [= -> ->]. done.
Qed.

Lemma emitBoth_list_elem (owner : string) (l : list (string * QVariant))
    (s : Signal) :
  s ∈ mjoin ((λ kv, [valueChanged kv.1 kv.2;
                      externalValueChanged owner kv.1 kv.2]) <$> l) →
  ∃ kv, kv ∈ l ∧ (s = valueChanged kv.1 kv.2
                  ∨ s = externalValueChanged owner kv.1 kv.2).
Proof.
  intros (chunk & Hs & Hl)%list_elem_of_join.
  apply list_elem_of_fmap in Hl as (kv & -> & Hkv). exists kv. split; [done |].
  apply elem_of_cons in Hs as [->|Hs]; [by left |].
  apply list_elem_of_singleton in Hs as ->. by right.
Qed.

Lemma emitBoth_NoDup (owner : string) (changes : gmap string QVariant) :
  NoDup (emitBoth owner changes).
Proof.
  unfold emitBoth. pose proof (NoDup_map_to_list changes) as Hnd.
  induction Hnd as [|[k v] l Hkv Hnd IH]; simpl; [constructor |].
  apply NoDup_cons. split.
  - intros [?|Hin]%elem_of_cons; [done |].
    apply emitBoth_list_elem in Hin as ([k' v'] & Hl & [Heq|Heq]);
      simpl in Heq; [|done]. by injection Heq as -> ->.
  - apply NoDup_cons. split; [|done].
    intros ([k' v'] & Hl & [Heq|Heq])%emitBoth_list_elem;
      simpl in Heq; [done |]. by injection Heq as -> ->.
Qed.

Lemma foldl_checkApp_NoDup (fs : FileSystem) (l : list string)
    (st : UniSettingsPrivate * list Signal) :
  NoDup l → NoDup st.2 →
  (∀ x y, x ∈ l → y ∈ l → baseName x ≠ "system" →
          baseName x = baseName y → x = y) →
  (∀ x k v, x ∈ l → baseName x ≠ "system" →
            externalValueChanged (baseName x) k v ∉ st.2) →
  NoDup (foldl (checkApp fs) st l).2.
Proof.
  intros Hnd. revert st.
  induction Hnd as [|x l Hx Hnd IH]; intros st Hst Huniq Hfresh; simpl;
    [done |].
  assert (Huniq' : ∀ y z, y ∈ l → z ∈ l → baseName y ≠ "system" →
                          baseName y = baseName z → y = z).
  { intros y z Hy Hz. apply Huniq; by right. }
  destruct (decide (baseName x = "system")) as [Hsys|Hsys].
  { rewrite checkApp_system by done. apply IH; [done | done |].
    intros y k v Hy. apply Hfresh. by right. }
  destruct (checkApp_sibling fs st x Hsys) as (Hsigs & _).
  apply IH; [|done |].
  - rewrite Hsigs. apply NoDup_app. split; [done |].
    split; [|apply emitExternal_NoDup].
    intros s Hs (k & v & -> & _)%emitExternal_elem.
    by apply (Hfresh x k v); [left | |].
  - intros y k v Hy Hne. rewrite Hsigs.
    intros [Hin|(k' & v' & [= Heq _ _] & _)%emitExternal_elem]%elem_of_app.
    + by apply (Hfresh y k v); [right | |].
    + apply Hx. rewrite (Huniq x y); [done | by left | by right | done | done].
Qed.

(** X19.  One signal per change.  The signals of one timer pass of an
    Application-scope instance are pairwise distinct, and so are those of
    the System-scope instance over a directory where no two files have the
    same base name: no key is reported twice in a pass. *)
Theorem timer_signals_once (fs : FileSystem) (d : UniSettingsPrivate) :
  (scope d = SystemScope →
   fileName (settings d) = "system" ∧ distinctBaseNames fs) →
  NoDup (out_signals (onTimeout fs d)).
Proof.
  intros Hsys. unfold onTimeout. destruct (scope d).
  - destruct (Hsys eq_refl) as [Hname Hdistinct]. unfold systemTimeout.
    pose proof (detectChanges_files fs (with_debounceTimer false d)) as Hnew.
    destruct (detectChanges fs (with_debounceTimer false d))
      as [[fs1 d1] changes]. simpl in Hnew. rewrite Hname in Hnew.
    pose proof (foldl_checkApp_NoDup fs1 (entryInfoList fs1)
                  (d1, emitExternal "system" changes)
                  (NoDup_fst_map_to_list _)
                  (emitExternal_NoDup "system" changes)) as Hnd.
    destruct (foldl (checkApp fs1) (d1, emitExternal "system" changes)
                (entryInfoList fs1)) as [d2 sigs2]. simpl in *.
    apply Hnd.
    + intros x y Hx Hy Hbase Heq.
      apply entryInfoList_elem, Hnew in Hx. apply entryInfoList_elem, Hnew in Hy.
      destruct Hx as [->|Hx]; [by destruct Hbase |].
      destruct Hy as [->|Hy]; [by rewrite Heq in Hbase |].
      by apply Hdistinct.
    + intros x k v _ Hne (k' & v' & [= Heq _ _] & _)%emitExternal_elem.
      done.
  - rewrite appTimeout_signals. apply emitBoth_NoDup.
Qed.

Lemma timer_signals_once_witness :
  NoDup (out_signals (onTimeout editorDir system0)).
Proof.
  apply timer_signals_once. intros _. split; [reflexivity |].
  intros x y Hx Hy _. unfold editorDir in *. simpl in *.
  destruct (decide (x = "editor")) as [->|Hnx];
    [|rewrite lookup_singleton_ne in Hx by done; by destruct Hx].
  destruct (decide (y = "editor")) as [->|Hny]; [done |].
  rewrite lookup_singleton_ne in Hy by done. by destruct Hy.
Defined.

Lemma newApplication_quiet_witness :
  "editor" ∈ watcher (newApplication editorDir "editor").
Proof.
  destruct (newApplication_quiet editorDir "editor") as (_ & _ & Hw & _).
  apply Hw. vm_compute. eauto.
Defined.

Lemma newSystem_quiet_witness :
  appCachedValues (newSystem editorDir) !! "editor"
  = Some (readFile editorDir "editor").
Proof.
  assert (Hdistinct : distinctBaseNames editorDir).
  { intros x y Hx Hy _. unfold editorDir in *. simpl in *.
    destruct (decide (x = "editor")) as [->|Hnx];
      [|rewrite lookup_singleton_ne in Hx by done; by destruct Hx].
    destruct (decide (y = "editor")) as [->|Hny]; [done |].
    rewrite lookup_singleton_ne in Hy by done. by destruct Hy. }
  destruct (newSystem_quiet editorDir Hdistinct) as (_ & _ & _ & Hs & _).
  apply (Hs "editor"); [discriminate | vm_compute; eauto].
Defined.

(** ** Files that share a base name *)

(** X20.  Files that share a base name share one entry of the sibling
    cache table and one owner name.  When the loop of the System-scope
    timer callback checks two such files with different contents one after
    the other, starting from the entry that a pass over them leaves (the
    contents of the second), it emits the delta of the first against the
    second and of the second against the first, so at least one signal,
    and leaves the entry as it found it: every pass reports changes
    although no file changed. *)
Theorem shared_baseName_reported_each_pass (fs : FileSystem)
    (st : UniSettingsPrivate * list Signal) (p1 p2 : string) :
  baseName p1 = baseName p2 →
  baseName p1 ≠ "system" →
  appCachedValues st.1 !! baseName p1 = Some (readFile fs p2) →
  readFile fs p1 ≠ readFile fs p2 →
  (foldl (checkApp fs) st [p1; p2]).2
  = (st.2
     ++ emitExternal (baseName p1) (delta (readFile fs p1) (readFile fs p2))
     ++ emitExternal (baseName p1) (delta (readFile fs p2) (readFile fs p1)))
    %list
  ∧ (foldl (checkApp fs) st [p1; p2]).2 ≠ st.2
  ∧ appCachedValues (foldl (checkApp fs) st [p1; p2]).1 !! baseName p1
    = Some (readFile fs p2).
Proof.
  intros Hshare Hbase Hentry Hdiff. simpl.
  assert (Hbase2 : baseName p2 ≠ "system") by by rewrite <- Hshare.
  destruct (checkApp_sibling fs st p1 Hbase) as (Hs1 & Hc1 & _).
  destruct (checkApp_sibling fs (checkApp fs st p1) p2 Hbase2)
    as (Hs2 & Hc2 & _).
  rewrite Hs2, Hc2, Hs1, Hc1, <- Hshare, Hentry, !lookup_insert_eq. simpl.
  split; [by rewrite <- app_assoc |]. split; [|done].
  intros Heq. rewrite <- app_assoc in Heq.
  assert (Hnil : (emitExternal (baseName p1)
                    (delta (readFile fs p1) (readFile fs p2))
                  ++ emitExternal (baseName p1)
                       (delta (readFile fs p2) (readFile fs p1)))%list = []).
  { apply (app_inv_head st.2). by rewrite app_nil_r. }
  apply app_eq_nil in Hnil as [Hnil _]. unfold emitExternal in Hnil.
  destruct (map_to_list (delta (readFile fs p1) (readFile fs p2)))
    as [|kv l] eqn:Hl; [|done].
  pose proof (proj1 (delta_empty_iff _ _)
                (proj1 (map_to_list_empty_iff _) Hl)) as Hsame.
  exact (Hdiff (eq_sym Hsame)).
Qed.

Lemma shared_baseName_reported_each_pass_witness :
  (foldl (checkApp sharedDir)
     ((foldl (checkApp sharedDir) (system0, []) ["a.1"; "a.2"]).1, [])
     ["a.1"; "a.2"]).2 ≠ [].
Proof.
  refine (proj1 (proj2 (shared_baseName_reported_each_pass sharedDir
           ((foldl (checkApp sharedDir) (system0, []) ["a.1"; "a.2"]).1, [])
           "a.1" "a.2" _ _ _ _)));
    [reflexivity | discriminate | by vm_compute |].
  intros Heq. apply (f_equal (λ m : gmap string QVariant, m !! "theme")) in Heq.
  vm_compute in Heq. discriminate.
Defined.
